(** * Hazard contexts, collapsing, probability composition and
      disaggregation binning of the OpenQuake engine

    A shallow embedding of

    - [openquake/hazardlib/contexts.py]        (context builder, collapser,
                                                probability-map composer),
    - [openquake/hazardlib/calc/disagg.py]     (bin edges, binning),
    - [openquake/calculators/classical.py]     (weighted task partitioner),
    - [openquake/calculators/disaggregation.py] (matrix-size ceiling).

    Conventions of the embedding.

    - A Python/numpy [float64] is an exact real number ([R]).  The one
      place where the code tests for [numpy.nan], [occurrence_rate], has
      the type [float64] with an explicit [NaN].  Rounding error is
      therefore outside the model: equalities proved here are the
      exact-arithmetic laws the code's tolerance tests check.
    - The magnitude and distance bin edges are the exception: whether they
      reach the smallest and the largest input is decided by the rounding
      of one division and one product, so they are computed in IEEE 754
      binary64, with the primitive floats of the Standard Library.
    - numpy arrays are lists, multi-dimensional ones in row-major order.
    - numpy integers are 64-bit: [numpy.prod] wraps around.
    - Python dictionaries and [ProbabilityMap] are [gmap]s.
    - A raised exception is the [Raise] branch of [result]. *)

From Stdlib Require Import Floats.
From Stdlib Require Import Reals Lra Lia ZArith.
From stdpp Require Import gmap strings list fin_maps.

(** ** Exceptions and the error monad *)

Inductive exn :=
  | ValueError | FarAwayRupture | AttributeError | IndexError | KeyError
  | AssertionError | NotImplementedError | SystemExit | TypeError
  | ZeroDivisionError | OverflowError.

Inductive result (A : Type) :=
  | Ok (a : A)
  | Raise (e : exn).
Arguments Ok {A} a.
Arguments Raise {A} e.

Global Instance result_ret : MRet result := λ A a, Ok a.
Global Instance result_bind : MBind result := λ A B f m,
  match m with Ok a => f a | Raise e => Raise e end.

Global Instance exn_eq_dec : EqDecision exn.
Proof. solve_decision. Defined.

(** [mapM] over the error monad, left to right. *)
Fixpoint traverse {A B} (f : A → result B) (l : list A) : result (list B) :=
  match l with
  | [] => Ok []
  | x :: l' => y ← f x; ys ← traverse f l'; Ok (y :: ys)
  end.

(** ** Real-number arrays *)

Global Instance R_eq_dec : EqDecision R := Req_dec_T.
Global Instance Rlt_decision : RelDecision Rlt := Rlt_dec.
Global Instance Rle_decision : RelDecision Rle := Rle_dec.
Global Instance R_inhabited : Inhabited R := populate 0%R.

(** A float that may be [numpy.nan]; addition propagates it. *)
Inductive float64 :=
  | NaN
  | Fin (x : R).

Definition isnan (x : float64) : bool :=
  match x with NaN => true | Fin _ => false end.

Definition fadd (x y : float64) : float64 :=
  match x, y with
  | Fin a, Fin b => Fin (a + b)
  | _, _ => NaN
  end.

(** [sum(l)] and [numpy.prod(l)] on reals. *)
Definition sumR (l : list R) : R := foldr Rplus 0%R l.
Definition prodR (l : list R) : R := foldr Rmult 1%R l.

(** [numpy.clip(x, lo, hi)]. *)
Definition clip (x lo hi : R) : R := Rmin (Rmax x lo) hi.

(** [Σ_k o[k] * φ k]: the weighted sum of an array, the tool used to reason
    about scatter-add loops ([φ k = x^k] evaluates the polynomial whose
    coefficients are [o]; an indicator picks one entry). *)
Fixpoint ev (φ : nat → R) (o : list R) : R :=
  match o with
  | [] => 0
  | c :: o' => c * φ O + ev (λ k, φ (S k)) o'
  end.

(** The indicator of index [k]. *)
Definition delta (k : nat) : nat → R := λ i, if decide (i = k) then 1%R else 0%R.

(** [numpy.round(x, decimals)]: scale, round half to even, unscale. *)
Definition rint (x : R) : Z :=
  let f := Zfloor x in
  if decide (x - IZR f < 1 / 2)%R then f
  else if decide (1 / 2 < x - IZR f)%R then (f + 1)%Z
  else if Z.even f then f else (f + 1)%Z.

Definition np_round (decimals : nat) (x : R) : R :=
  (IZR (rint (x * 10 ^ decimals)) / 10 ^ decimals)%R.

(** [a[mask]] for a boolean mask of the length of [a]. *)
Fixpoint compress {A} (mask : list bool) (a : list A) : list A :=
  match mask, a with
  | b :: mask', x :: a' => if b then x :: compress mask' a' else compress mask' a'
  | _, _ => []
  end.

(** [mask.any()]. *)
Definition array_any (mask : list bool) : bool := existsb (λ b, b) mask.

(** [a.min()]; numpy refuses an empty array. *)
Definition array_min (a : list R) : result R :=
  match a with
  | [] => Raise ValueError
  | x :: a' => Ok (foldl Rmin x a')
  end.

(** [numpy.zeros(n)]: a negative dimension is refused. *)
Definition zeros (n : Z) : result (list R) :=
  if decide (n < 0)%Z then Raise ValueError
  else Ok (replicate (Z.to_nat n) 0%R).

(** ** Binary64 numbers

    The operations of Python and numpy on floats that the bin edges go
    through.  A finite float is [(-1)^s * m * 2^e] ([Prim2SF]). *)

Module Binary64.
Local Open Scope Z_scope.

Definition signed (s : bool) (m : positive) : Z :=
  if s then Z.neg m else Z.pos m.

(** The conversion of an integer to a float, to the nearest float, ties to
    even: [float(i)], and what numpy does with an integer array that is
    multiplied by a float. *)
Definition float_of_int (z : Z) : float :=
  SF2Prim (binary_normalize prec emax z 0 false).

(** [numpy.floor(x)] and [numpy.ceil(x)]: floats again.  A float with a
    non-negative exponent is an integer already; the others are below
    2^53 and their floor and ceiling are floats. *)
Definition numpy_floor (x : float) : float :=
  match Prim2SF x with
  | S754_finite s m e =>
      if 0 <=? e then x else float_of_int (signed s m / 2 ^ (- e))
  | _ => x
  end.

Definition numpy_ceil (x : float) : float :=
  match Prim2SF x with
  | S754_finite s m e =>
      if 0 <=? e then x
      else let c := - (- signed s m / 2 ^ (- e)) in
           if (c =? 0) && s then (-0)%float else float_of_int c
  | _ => x
  end.

(** [int(x)]: truncation; an infinity and a NaN are refused. *)
Definition int (x : float) : result Z :=
  match Prim2SF x with
  | S754_zero _ => Ok 0
  | S754_finite s m e =>
      Ok (if 0 <=? e then signed s m * 2 ^ e else signed s m ÷ 2 ^ (- e))
  | S754_infinity _ => Raise OverflowError
  | S754_nan => Raise ValueError
  end.

(** [a / b] on Python floats. *)
Definition truediv (a b : float) : result float :=
  if (b =? 0)%float then Raise ZeroDivisionError else Ok (a / b)%float.

(** [min(l)] and [max(l)]: the first of the smallest (largest) items, found
    with [<] (with [>]). *)
Definition py_min (l : list float) : result float :=
  match l with
  | [] => Raise ValueError
  | x :: l' => Ok (foldl (λ m y, if (y <? m)%float then y else m) x l')
  end.

Definition py_max (l : list float) : result float :=
  match l with
  | [] => Raise ValueError
  | x :: l' => Ok (foldl (λ m y, if (m <? y)%float then y else m) x l')
  end.

(** The real number that a float is: 0 for the two zeros; an infinity and
    a NaN are no real number and are given 0 (the edges below reach this
    conversion with a finite float only, [int] having refused the
    others). *)
Definition to_R (x : float) : R :=
  match Prim2SF x with
  | S754_finite s m e =>
      if 0 <=? e then IZR (signed s m * 2 ^ e)
      else (IZR (signed s m) / IZR (2 ^ (- e)))%R
  | _ => 0%R
  end.
End Binary64.

(** * openquake.baselib.general *)

Module General.
Local Open Scope R_scope.

Section block_splitter.
Context {A : Type}.

(** Total weight of a block ([WeightedSequence.weight]). *)
Definition block_weight (weight : A → R) (block : list A) : R :=
  sumR (map weight block).

(** Modelled from the spec: [block_splitter(items, max_weight, weight)] of
    openquake.baselib.general is not under src/.  "Greedy accumulation:
    append items to the current block until adding the next would exceed
    max_weight, then start a new block."  [cur] is the block being filled;
    blocks come out in the order of the items and no empty block is
    produced. *)
Fixpoint block_splitter_from (cur : list A) (items : list A)
    (max_weight : R) (weight : A → R) : list (list A) :=
  match items with
  | [] => match cur with [] => [] | _ => [cur] end
  | item :: rest =>
      if decide (max_weight < block_weight weight cur + weight item) then
        match cur with
        | [] => block_splitter_from [item] rest max_weight weight
        | _ => cur :: block_splitter_from [item] rest max_weight weight
        end
      else block_splitter_from (cur ++ [item]) rest max_weight weight
  end.

Definition block_splitter (items : list A) (max_weight : R)
    (weight : A → R) : list (list A) :=
  block_splitter_from [] items max_weight weight.

(** Modelled from the spec: [groupby(objects, key)] of
    openquake.baselib.general is not under src/; it returns a dictionary
    key -> list of the objects with that key ("Grouping key ... Within a
    group").  Here the groups are kept in an association list, each group
    in the order of the input, the groups in the order of first
    appearance of their key. *)
Fixpoint add_to_group {K} `{EqDecision K} (k : K) (x : A)
    (groups : list (K * list A)) : list (K * list A) :=
  match groups with
  | [] => [(k, [x])]
  | (k', g) :: groups' =>
      if decide (k = k') then (k', g ++ [x]) :: groups'
      else (k', g) :: add_to_group k x groups'
  end.

Definition groupby {K} `{EqDecision K} (objects : list A) (key : A → K)
    : list (K * list A) :=
  foldl (λ groups x, add_to_group (key x) x groups) [] objects.
End block_splitter.
End General.

(** * openquake.hazardlib.contexts *)

Module Contexts.
Local Open Scope R_scope.

Definition KNOWN_DISTANCES : gset string :=
  list_to_set ["rrup"; "rx"; "ry0"; "rjb"; "rhypo"; "repi"; "rcdpp";
               "azimuth"; "azimuth_cp"; "rvolc"; "closest_point"]%string.

(** ** Sites, surfaces, ruptures: the external collaborators

    A site collection is the list of its sites together with the complete
    collection it was filtered from.  The geometry methods of a surface are
    functions of a site; the Python methods take the whole mesh and return
    the array of the per-site values. *)

Record Site := {
  site_id : nat;
  site_lon : R;                      (* site.location.x *)
  site_lat : R;                      (* site.location.y *)
  site_params : gmap string R;
}.

Record SiteCollection := {
  sitecol_sites : list Site;
  sitecol_complete : list Site;
}.

(** [sites.filter(mask)] and [sites.sids]. *)
Definition sitecol_filter (mask : list bool) (sites : SiteCollection)
    : SiteCollection :=
  {| sitecol_sites := compress mask (sitecol_sites sites);
     sitecol_complete := sitecol_complete sites |}.

Definition sitecol_sids (sites : SiteCollection) : list nat :=
  map site_id (sitecol_sites sites).

(** [sites[par]]: the array of a site parameter. *)
Definition sitecol_getitem (sites : SiteCollection) (par : string)
    : result (list R) :=
  traverse (λ s, match site_params s !! par with
                 | Some v => Ok v
                 | None => Raise ValueError
                 end) (sitecol_sites sites).

Record Surface := {
  get_min_distance : Site → R;
  get_rx_distance : Site → R;
  get_ry0_distance : Site → R;
  get_joyner_boore_distance : Site → R;
  get_azimuth : Site → R;
  get_azimuth_of_closest_point : Site → R;
  get_closest_points : Site → R * R * R;            (* lon, lat, depth *)
  surface_gc2t : option (list R);    (* the attribute, when set and not None *)
  surface_gc2u : option (list R);
  get_generalised_coordinates : list Site → option (list R * list R);
                                     (* [None]: the call raises *)
  is_planar : bool;                  (* isinstance(surface, PlanarSurface) *)
}.

Record Rupture := {
  rup_id : Z;
  rup_mag : R;
  rup_surface : option Surface;      (* [None]: a falsy surface (PointRupture) *)
  hypocenter_distance_to_mesh : bool → Site → R;    (* with_depths *)
  hypocenter_depth : R;
  get_cdppvalue : Site → R;
  rup_sites : option SiteCollection; (* the [sites] attribute, when set *)
}.

Definition get_distances (rupture : Rupture) (sites : list Site)
    (param : string) : result (list R) :=
  match rup_surface rupture with
  | None => Ok (map (hypocenter_distance_to_mesh rupture true) sites)
  | Some surf =>
    if decide (param = "rrup") then Ok (map (get_min_distance surf) sites)
    else if decide (param = "rx") then Ok (map (get_rx_distance surf) sites)
    else if decide (param = "ry0") then Ok (map (get_ry0_distance surf) sites)
    else if decide (param = "rjb") then
      Ok (map (get_joyner_boore_distance surf) sites)
    else if decide (param = "rhypo") then
      Ok (map (hypocenter_distance_to_mesh rupture true) sites)
    else if decide (param = "repi") then
      Ok (map (hypocenter_distance_to_mesh rupture false) sites)
    else if decide (param = "rcdpp") then Ok (map (get_cdppvalue rupture) sites)
    else if decide (param = "azimuth") then Ok (map (get_azimuth surf) sites)
    else if decide (param = "azimuth_cp") then
      Ok (map (get_azimuth_of_closest_point surf) sites)
    else if decide (param = "closest_point") then
      Ok (flat_map (λ s, let '(lo, la, de) := get_closest_points surf s in
                         [lo; la; de]) sites)
    else if decide (param = "gc2t" ∨ param = "gc2u") then
      match (if decide (param = "gc2t") then surface_gc2t surf
             else surface_gc2u surf) with
      | Some dist => Ok dist
      | None =>
          match get_generalised_coordinates surf sites with
          | Some (gc2t, gc2u) =>
              Ok (if decide (param = "gc2t") then gc2t else gc2u)
          | None => Ok []
          end
      end
    else if decide (param = "rvolc") then Ok (replicate (length sites) 0)
    else Raise ValueError
  end.

(** ** Contexts *)

(** [vars(dctx)]: distance name -> array. *)
Abbreviation DistancesContext := (gmap string (list R)).

(** A rupture context.  [occurrence_rate = NaN] is the mark of a
    non-parametric rupture.  [rup_params] holds the scalar rupture
    parameters ([mag], [rake], ...), [arrays] the per-site arrays (distances
    and site parameters). *)
Record RuptureContext := {
  occurrence_rate : float64;
  probs_occur : list R;
  weight : R;
  sids : list nat;
  rup_params : gmap string R;
  arrays : gmap string (list R);
}.

Definition set_occurrence_rate (ctx : RuptureContext) (rate : float64) :=
  {| occurrence_rate := rate; probs_occur := probs_occur ctx;
     weight := weight ctx; sids := sids ctx;
     rup_params := rup_params ctx; arrays := arrays ctx |}.

Definition set_probs_occur (ctx : RuptureContext) (p : list R) :=
  {| occurrence_rate := occurrence_rate ctx; probs_occur := p;
     weight := weight ctx; sids := sids ctx;
     rup_params := rup_params ctx; arrays := arrays ctx |}.

Definition set_sids (ctx : RuptureContext) (s : list nat) :=
  {| occurrence_rate := occurrence_rate ctx; probs_occur := probs_occur ctx;
     weight := weight ctx; sids := s;
     rup_params := rup_params ctx; arrays := arrays ctx |}.

Definition set_arrays (ctx : RuptureContext) (a : gmap string (list R)) :=
  {| occurrence_rate := occurrence_rate ctx; probs_occur := probs_occur ctx;
     weight := weight ctx; sids := sids ctx;
     rup_params := rup_params ctx; arrays := a |}.

(** [setattr(ctx, par, array)]. *)
Definition setattr_array (ctx : RuptureContext) (par : string) (a : list R) :=
  set_arrays ctx (<[par := a]> (arrays ctx)).

(** A temporal occurrence model, seen through its method
    [get_probability_no_exceedance(occurrence_rate, poes)]. *)
Abbreviation TOM := (R → R → R).

(** Modelled from the spec: [PoissonTOM(time_span)] of openquake.hazardlib.tom
    is not under src/; it is the "Poissonian ... no-exceedance formula": a
    rupture of annual rate [rate] that exceeds a level with conditional
    probability [poes] does not exceed it in [time_span] years with
    probability exp(- rate * time_span * poes). *)
Definition PoissonTOM (time_span : R) : TOM :=
  λ rate poes, exp (- (rate * time_span * poes)).

(** The groups of ground-motion models are external: [gsims_poes block n] is
    row [n] of the array of shape (N, L, G) that [gen_ctx_poes] fills from
    [gsim.get_mean_std] and [gsim.get_poes], a row being the (L, G) array
    of one site of one context of the block. [make_rctx] is the method that
    copies the rupture attributes and the required rupture parameters
    ([None]: unknown parameter, ValueError). *)
Record ContextMaker := {
  trt : string;
  maximum_distance : string → R → R;
  REQUIRES_DISTANCES : list string;
  REQUIRES_RUPTURE_PARAMETERS : list string;
  REQUIRES_SITES_PARAMETERS : list string;
  collapse_level : Z;
  reqv : option (list R → R → list R);
  num_levels : nat;                       (* len(self.loglevels.array) *)
  num_gsims : nat;                        (* len(self.gsims) *)
  investigation_time : R;
  gsims_poes : list RuptureContext → nat → list R;
  make_rctx : Rupture → option RuptureContext;
}.

(** The final loop of [gen_ctx_poes]: [ctx, poes[s:s+n]] for every context,
    [s] running over the sites. *)
Fixpoint slice_poes (poes : list (list R)) (ctxs : list RuptureContext)
    (s : nat) : list (RuptureContext * list (list R)) :=
  match ctxs with
  | [] => []
  | ctx :: rest =>
      let n := length (sids ctx) in
      (ctx, take n (drop s poes)) :: slice_poes poes rest (s + n)%nat
  end.

Definition gen_ctx_poes (cm : ContextMaker) (ctxs : list RuptureContext)
    : list (RuptureContext * list (list R)) :=
  let nsites := map (λ ctx, length (sids ctx)) ctxs in
  let N := foldr Nat.add O nsites in
  let poes := map (gsims_poes cm ctxs) (seq 0 N) in
  slice_poes poes ctxs O.

Definition ContextMaker_filter (cm : ContextMaker) (sites : SiteCollection)
    (rup : Rupture) : result (SiteCollection * DistancesContext) :=
  distances ← get_distances rup (sitecol_sites sites) "rrup";
  let mdist := maximum_distance cm (trt cm) (rup_mag rup) in
  let mask := map (λ d, bool_decide (d <= mdist)) distances in
  if array_any mask then
    Ok (sitecol_filter mask sites, {[ "rrup"%string := compress mask distances ]})
  else
    _ ← array_min distances;           (* formatted into the message *)
    Raise FarAwayRupture.

Definition make_contexts (cm : ContextMaker) (sites : SiteCollection)
    (rupture : Rupture)
    : result (RuptureContext * SiteCollection * DistancesContext) :=
  '(sites, dctx) ← ContextMaker_filter cm sites rupture;
  dctx ← foldl (λ acc param,
                  dctx ← acc;
                  distances ← get_distances rupture (sitecol_sites sites) param;
                  Ok (<[param := distances]> dctx))
               (Ok dctx)
               (filter (λ p, p ≠ "rrup"%string) (REQUIRES_DISTANCES cm));
  dctx ← match reqv cm, rup_surface rupture with
         | Some reqv_get, Some surf =>
             if is_planar surf then
               match dctx !! "repi"%string with
               | None => Raise AttributeError
               | Some repi =>
                   let reqv := reqv_get repi (rup_mag rupture) in
                   let dctx :=
                     if decide ("rjb"%string ∈ REQUIRES_DISTANCES cm)
                     then <["rjb"%string := reqv]> dctx else dctx in
                   Ok (if decide ("rrup"%string ∈ REQUIRES_DISTANCES cm)
                       then <["rrup"%string :=
                                map (λ r, sqrt (r ^ 2 + hypocenter_depth rupture ^ 2))
                                    reqv]> dctx
                       else dctx)
               end
             else Ok dctx
         | _, _ => Ok dctx
         end;
  match make_rctx cm rupture with
  | None => Raise ValueError
  | Some ctx => Ok (ctx, sites, dctx)
  end.

(** The body of the loop of [make_ctxs] after [make_contexts] returned. *)
Definition fill_ctx (cm : ContextMaker) (rup : Rupture)
    (sites : SiteCollection) (fewsites : bool)
    (ctx : RuptureContext) (r_sites : SiteCollection) (dctx : DistancesContext)
    : result RuptureContext :=
  ctx ← foldl (λ acc par, ctx ← acc; a ← sitecol_getitem r_sites par;
                          Ok (setattr_array ctx par a))
              (Ok ctx) (REQUIRES_SITES_PARAMETERS cm);
  let ctx := set_sids ctx (sitecol_sids r_sites) in
  ctx ← foldl (λ acc par, ctx ← acc;
                          match dctx !! par with
                          | Some a => Ok (setattr_array ctx par a)
                          | None => Raise AttributeError
                          end)
              (Ok ctx) (list_union (REQUIRES_DISTANCES cm) ["rrup"%string]);
  if fewsites then
    match rup_surface rup with
    | None => Raise AttributeError
    | Some surf =>
        let closest := map (get_closest_points surf) (sitecol_complete sites) in
        pts ← traverse (λ sid, match closest !! sid with
                               | Some p => Ok p
                               | None => Raise IndexError
                               end) (sids ctx);
        Ok (setattr_array
              (setattr_array ctx "clon" (map (λ p, p.1.1) pts))
              "clat" (map (λ p, p.1.2) pts))
    end
  else Ok ctx.

Fixpoint make_ctxs (cm : ContextMaker) (ruptures : list Rupture)
    (sites : SiteCollection) (fewsites : bool)
    : result (list RuptureContext) :=
  match ruptures with
  | [] => Ok []
  | rup :: rest =>
      match make_contexts cm (default sites (rup_sites rup)) rup with
      | Raise FarAwayRupture => make_ctxs cm rest sites fewsites
      | Raise e => Raise e
      | Ok (ctx, r_sites, dctx) =>
          ctx ← fill_ctx cm rup sites fewsites ctx r_sites dctx;
          ctxs ← make_ctxs cm rest sites fewsites;
          Ok (ctx :: ctxs)
      end
  end.
(** ** Collapsing *)

(** [functools.reduce(f, l)] without initial value. *)
Definition reduce {A} (f : A → A → result A) (l : list A) : result A :=
  match l with
  | [] => Raise TypeError
  | x :: l' => foldl (λ acc y, a ← acc; f a y) (Ok x) l'
  end.

Definition combine_pmf (o1 o2 : list R) : result (list R) :=
  let n1 := length o1 in
  let n2 := length o2 in
  o ← zeros (Z.of_nat n1 + Z.of_nat n2 - 1);
  Ok (foldl (λ o i,
        foldl (λ o j, alter (λ x, x + nth i o1 0 * nth j o2 0) (i + j)%nat o)
              o (seq 0 n2))
      o (seq 0 n1)).

(** The convolution sum in the words of the specification: the sum of
    o1[i] * o2[j] over all index pairs (i, j) with i + j = k. *)
Definition convolution_sum (o1 o2 : list R) (k : nat) : R :=
  sumR (map (λ ij, nth ij.1 o1 0 * nth ij.2 o2 0)
            (filter (λ ij, (ij.1 + ij.2)%nat = k)
                    (list_prod (seq 0 (length o1)) (seq 0 (length o2))))).

Definition _collapse (ctxs : list RuptureContext)
    : result (list RuptureContext) :=
  if decide (length ctxs < 2)%nat then Ok ctxs else
  let nrups := filter (λ ctx, isnan (occurrence_rate ctx)) ctxs in
  let prups := filter (λ ctx, ¬ isnan (occurrence_rate ctx)) ctxs in
  let out :=
    match prups with
    | ctx :: _ :: _ =>
        [set_occurrence_rate ctx
           (foldl fadd (Fin 0) (map occurrence_rate prups))]
    | _ => prups
    end in
  match nrups with
  | ctx :: _ :: _ =>
      p ← reduce combine_pmf (map probs_occur nrups);
      Ok (out ++ [set_probs_occur ctx p])
  | _ => Ok (out ++ nrups)
  end.

(** The grouping key of [collapse_the_ctxs] (its inner function [params]). *)
Definition params (cm : ContextMaker) (rrp : list string) (rnd : nat)
    (ctx : RuptureContext) : result (list R) :=
  lst ← traverse (λ par, match rup_params ctx !! par with
                         | Some v => Ok v
                         | None => Raise AttributeError
                         end) rrp;
  dsts ← traverse (λ dst, match arrays ctx !! dst with
                          | Some a => Ok (map (np_round rnd) a)
                          | None => Raise AttributeError
                          end) (REQUIRES_DISTANCES cm);
  Ok (lst ++ concat dsts).

Definition collapse_the_ctxs (cm : ContextMaker) (ctxs : list RuptureContext)
    : result (list RuptureContext) :=
  if decide (length ctxs = 1)%nat then Ok ctxs else
  let '(rrp, rnd) :=
    if decide (3 <= collapse_level cm)%Z then (["mag"%string], O)
    else (REQUIRES_RUPTURE_PARAMETERS cm, 1%nat) in
  keyed ← traverse (λ ctx, k ← params cm rrp rnd ctx; Ok (k, ctx)) ctxs;
  outs ← traverse (λ g, _collapse (map snd g.2)) (General.groupby keyed fst);
  Ok (concat outs).

(** ** Probability of no exceedance *)

(** [RuptureContext.get_probability_no_exceedance] at one entry of [poes];
    [tom] is the class attribute [temporal_occurrence_model].  numpy applies
    it to every entry of an array. *)
Definition get_probability_no_exceedance (tom : TOM) (self : RuptureContext)
    (poes : R) : R :=
  match occurrence_rate self with
  | NaN =>                                   (* nonparametric rupture *)
      let prob_no_exceed :=
        sumR (imap (λ i v, v * (1 - poes) ^ i) (probs_occur self)) in
      clip prob_no_exceed 0 1
  | Fin rate => tom rate poes                (* parametric rupture *)
  end.

(** [compose] of contexts_test.py. *)
Definition compose (tom : TOM) (ctxs : list RuptureContext) (poe : R)
    : R * list R :=
  let pnes := map (λ ctx, get_probability_no_exceedance tom ctx poe) ctxs in
  (1 - prodR pnes, pnes).

(** ** Probability maps *)

(** Modelled from the spec: [ProbabilityMap] of
    openquake.hazardlib.probability_map is not under src/.  It is a
    "mapping from site identifier to an array of shape (intensity levels x
    ground-motion models)"; [setdefault(sid, value)] follows the dictionary
    protocol its callers rely on: the array stored for [sid], after storing
    an array filled with [value] when the site is absent. *)
Record ProbabilityMap := {
  shape_y : nat;
  shape_z : nat;
  curves : gmap nat (list R);
}.

Definition new_ProbabilityMap (L G : nat) : ProbabilityMap :=
  {| shape_y := L; shape_z := G; curves := ∅ |}.

Definition set_curve (pmap : ProbabilityMap) (sid : nat) (a : list R) :=
  {| shape_y := shape_y pmap; shape_z := shape_z pmap;
     curves := <[sid := a]> (curves pmap) |}.

Definition setdefault (pmap : ProbabilityMap) (sid : nat) (value : R)
    : list R * ProbabilityMap :=
  match curves pmap !! sid with
  | Some a => (a, pmap)
  | None =>
      let a := replicate (shape_y pmap * shape_z pmap) value in
      (a, set_curve pmap sid a)
  end.

(** [~pmap]: the complement of every value. *)
Definition invert (pmap : ProbabilityMap) : ProbabilityMap :=
  {| shape_y := shape_y pmap; shape_z := shape_z pmap;
     curves := map (λ x, 1 - x) <$> curves pmap |}.

(** A Python bool used as a number. *)
Definition bool_to_R (b : bool) : R := if b then 1 else 0.

Record PmapMaker := {
  cmaker : ContextMaker;
  rup_indep : bool;                  (* group.rup_interdep != 'mutex' *)
  maxsites : R;
}.

(** The body of the innermost loop of [_update_pmap]: one site of one
    context.  The array returned by [setdefault] is updated in place. *)
Definition update_site (rup_indep : bool) (ctx : RuptureContext)
    (pmap : ProbabilityMap) (sid : nat) (pne : list R) : ProbabilityMap :=
  let '(probs, pmap) := setdefault pmap sid (bool_to_R rup_indep) in
  if rup_indep then
    set_curve pmap sid (zip_with Rmult probs pne)
  else
    set_curve pmap sid
      (zip_with (λ p q, p + (1 - q) * weight ctx) probs pne).

(** The loop over [zip(ctx.sids, pnes)]. *)
Definition update_ctx (tom : TOM) (rup_indep : bool) (pmap : ProbabilityMap)
    (ctx_poes : RuptureContext * list (list R)) : ProbabilityMap :=
  let '(ctx, poes) := ctx_poes in
  let pnes := map (map (get_probability_no_exceedance tom ctx)) poes in
  foldl (λ pmap sid_pne, update_site rup_indep ctx pmap sid_pne.1 sid_pne.2)
        pmap (zip (sids ctx) pnes).

Definition _update_pmap (tom : TOM) (self : PmapMaker)
    (ctxs : list RuptureContext) (pmap : ProbabilityMap) : ProbabilityMap :=
  foldl (λ pmap block,
           foldl (update_ctx tom (rup_indep self)) pmap
                 (gen_ctx_poes (cmaker self) block))
        pmap
        (General.block_splitter ctxs (maxsites self)
           (λ ctx, INR (length (sids ctx)))).

Definition _make_pmap (ctxs : list RuptureContext) (cmaker : ContextMaker)
    : ProbabilityMap :=
  let tom := PoissonTOM (investigation_time cmaker) in
  let pmap := new_ProbabilityMap (num_levels cmaker) (num_gsims cmaker) in
  invert
    (foldl (λ pmap ctx_poes,
              let '(ctx, poes) := ctx_poes in
              let pnes := map (map (get_probability_no_exceedance tom ctx)) poes in
              foldl (λ pmap sid_pne,
                       let '(a, pmap) := setdefault pmap sid_pne.1 1 in
                       set_curve pmap sid_pne.1 (zip_with Rmult a sid_pne.2))
                    pmap (zip (sids ctx) pnes))
           pmap (gen_ctx_poes cmaker ctxs)).

(** ** Minimum-distance roundup *)

(** The update of one array: entries below [minimum_distance] are set to
    it, in a copy; an array without such entries is returned as it is. *)
Definition roundup_array (minimum_distance : R) (array : list R) : list R :=
  let small_distances := map (λ d, bool_decide (d < minimum_distance)) array in
  if array_any small_distances then
    zip_with (λ (small : bool) d, if small then minimum_distance else d)
             small_distances array
  else array.

Definition DistancesContext_roundup (self : DistancesContext)
    (minimum_distance : R) : DistancesContext :=
  if decide (minimum_distance = 0) then self
  else roundup_array minimum_distance <$> self.

Definition RuptureContext_roundup (self : RuptureContext)
    (minimum_distance : R) : RuptureContext :=
  if decide (minimum_distance = 0) then self
  else
    set_arrays self
      (map_imap (λ dist array,
                   Some (if decide (dist ∈ KNOWN_DISTANCES)
                         then roundup_array minimum_distance array
                         else array))
                (arrays self)).
End Contexts.

(** * openquake.hazardlib.calc.disagg *)

Module Disagg.
Import Contexts.
Local Open Scope R_scope.

(** The functions of openquake.hazardlib.geo.utils used by the binning;
    they are not under src/ and stay parameters. *)
Record GeoUtils := {
  KM_TO_DEGREES : R;
  angular_distance : R → R → R;
  cross_idl : list R → bool;
  get_longitudinal_extent : R → R → R;
}.

(** The fields of the job parameters read here;
    [maximum_distance trt] is [filters.getdefault(oq.maximum_distance, trt)].
    The two bin widths and the maximum distances that the magnitude and
    distance edges are computed from are binary64 floats. *)
Record OqParam := {
  truncation_level : R;
  num_rlzs_disagg : nat;
  rlz_index : option (list nat);
  num_epsilon_bins : nat;
  mag_bin_width : float;
  distance_bin_width : float;
  coordinate_bin_width : R;
  oq_maximum_distance : string → float;
  num_imts : nat;                              (* len(oq.imtls) *)
  poes_disagg : list R;
}.

(** [numpy.arange(a, b)] on integers, [numpy.arange(start, stop, step)] on
    floats (ceil((stop - start) / step) values) and
    [numpy.linspace(start, stop, num)].  A zero step makes the numpy
    computation fail. *)
Definition arange (a b : Z) : list Z :=
  map (λ i, (a + Z.of_nat i)%Z) (seq 0 (Z.to_nat (b - a))).

Definition arange_float (start stop step : R) : result (list R) :=
  if decide (step = 0) then Raise ValueError
  else Ok (map (λ i, start + INR i * step)
               (seq 0 (Z.to_nat (Zceil ((stop - start) / step))))).

Definition linspace (start stop : R) (num : nat) : list R :=
  map (λ i, start + INR i * ((stop - start) / INR (num - 1))) (seq 0 num).

(** [x % 360] on floats. *)
Definition fmod360 (x : R) : R := x - 360 * IZR (Zfloor (x / 360)).

(** [lon_lat_bins]: the division by a zero bin width raises
    ZeroDivisionError; with no bin at all the step of [numpy.arange] is
    not a number, which numpy refuses. *)
Definition lon_lat_bins (geo : GeoUtils) (lon lat size_km coord_bin_width : R)
    : result (list R * list R) :=
  if decide (coord_bin_width = 0) then Raise ZeroDivisionError else
  let nbins := IZR (Zceil (size_km * KM_TO_DEGREES geo / coord_bin_width)) in
  if decide (nbins = 0) then Raise ValueError else
  let delta_lon := Rmin (angular_distance geo size_km lat) 180 in
  let delta_lat := Rmin (size_km * KM_TO_DEGREES geo) 90 in
  let EPS := 1 / 1000 in
  lon_steps ← arange_float (- delta_lon) (delta_lon + EPS) (delta_lon / nbins);
  lat_steps ← arange_float (- delta_lat) (delta_lat + EPS) (delta_lat / nbins);
  let lon_bins := map (λ x, lon + x) lon_steps in
  let lat_bins := map (λ x, lat + x) lat_steps in
  Ok (if cross_idl geo lon_bins then map fmod360 lon_bins else lon_bins,
      lat_bins).

(** The magnitude and distance edges, as [get_edges_shapedic] builds them:
    [width * numpy.arange(int(numpy.floor(min / width)),
    int(numpy.ceil(max / width) + 1))] in binary64, the arguments evaluated
    from left to right.  (The integers between the two bounds are kept as
    they are; numpy's own limits on the size of an array are not
    modelled.) *)
Definition build_mag_edges (mag_bin_width : float) (mags : list float)
    : result (list float) :=
  lo ← Binary64.py_min mags;
  q ← Binary64.truediv lo mag_bin_width;
  lo ← Binary64.int (Binary64.numpy_floor q);
  hi ← Binary64.py_max mags;
  q ← Binary64.truediv hi mag_bin_width;
  hi ← Binary64.int (Binary64.numpy_ceil q + 1)%float;
  Ok (map (λ i, (mag_bin_width * Binary64.float_of_int i)%float)
          (arange lo hi)).

Definition build_dist_edges (distance_bin_width maxdist : float)
    : result (list float) :=
  q ← Binary64.truediv maxdist distance_bin_width;
  hi ← Binary64.int (Binary64.numpy_ceil q + 1)%float;
  Ok (map (λ i, (distance_bin_width * Binary64.float_of_int i)%float)
          (arange 0 hi)).

Record BinEdges := {
  mag_edges : list float;
  dist_edges : list float;
  lon_edges : gmap nat (list R);               (* by site id *)
  lat_edges : gmap nat (list R);
  eps_edges : list R;
  trts : list string;
}.

(** [assert_same_shape(arrays)]. *)
Definition assert_same_shape (arrays : list (list R)) : result unit :=
  match arrays with
  | [] => Raise IndexError
  | a :: rest =>
      if decide (Forall (λ arr, length arr = length a) rest) then Ok ()
      else Raise AssertionError
  end.

Definition BIN_NAMES : list string :=
  ["mag"; "dist"; "lon"; "lat"; "eps"; "trt"]%string.

Definition get_edges_shapedic (geo : GeoUtils) (oq : OqParam)
    (sitecol : list Site) (mags_by_trt : list (string * list float))
    : result (BinEdges * gmap string Z) :=
  let tl := truncation_level oq in
  let Z_ := match rlz_index oq with
            | None => num_rlzs_disagg oq
            | Some idx => length idx
            end in
  (* build mag_edges: the minimum and the maximum of the set of the
     magnitudes are those of the list of all of them *)
  let mags := concat (map snd mags_by_trt) in
  let trts := map fst mags_by_trt in
  mag_edges ← build_mag_edges (mag_bin_width oq) mags;
  (* build dist_edges *)
  maxdist ← Binary64.py_max (map (oq_maximum_distance oq) trts);
  dist_edges ← build_dist_edges (distance_bin_width oq) maxdist;
  (* build eps_edges *)
  let eps_edges := linspace (- tl) tl (num_epsilon_bins oq + 1) in
  (* build lon_edges, lat_edges per sid *)
  lonlat ← foldl (λ acc site,
                    '(lon_edges, lat_edges) ← acc;
                    '(lons, lats) ← lon_lat_bins geo (site_lon site) (site_lat site)
                                      (Binary64.to_R maxdist)
                                      (coordinate_bin_width oq);
                    Ok (<[site_id site := lons]> lon_edges,
                        <[site_id site := lats]> lat_edges))
                 (Ok (∅, ∅)) sitecol;
  let '(lon_edges, lat_edges) := lonlat in
  (* sanity check: the shapes of the lon lat edges are consistent *)
  _ ← assert_same_shape (snd <$> map_to_list lon_edges);
  _ ← assert_same_shape (snd <$> map_to_list lat_edges);
  match lon_edges !! O, lat_edges !! O with
  | Some lon0, Some lat0 =>
      let shape := [Z.of_nat (length mag_edges) - 1;
                    Z.of_nat (length dist_edges) - 1;
                    Z.of_nat (length lon0) - 1; Z.of_nat (length lat0) - 1;
                    Z.of_nat (length eps_edges) - 1;
                    Z.of_nat (length trts)]%Z in
      let shapedic : gmap string Z := list_to_map (zip BIN_NAMES shape) in
      let shapedic := <["N"%string := Z.of_nat (length sitecol)]> shapedic in
      let shapedic := <["M"%string := Z.of_nat (num_imts oq)]> shapedic in
      let shapedic :=
        <["P"%string := Z.of_nat (match poes_disagg oq with
                                  | [] => 1
                                  | ps => length ps
                                  end)]> shapedic in
      let shapedic := <["Z"%string := Z.of_nat Z_]> shapedic in
      Ok ({| mag_edges := mag_edges; dist_edges := dist_edges;
             lon_edges := lon_edges; lat_edges := lat_edges;
             eps_edges := eps_edges; trts := trts |}, shapedic)
  | _, _ => Raise KeyError
  end.

(** ** Binning *)





(** [bdata]: per rupture the distance, the longitude and latitude of the
    closest point and the (E, P, Z) array of no-exceedance probabilities,
    flattened. *)
Record BinData := {
  bd_dists : list R;
  bd_lons : list R;
  bd_lats : list R;
  bd_pnes : list (list R);
  bd_shape : nat * nat * nat;                  (* E, P, Z *)
}.




End Disagg.

(** * openquake.calculators.classical *)

Module Classical.
Local Open Scope R_scope.

Record Source := {
  source_id : nat;
  source_weight : R;                           (* get_weight *)
}.

Record Params := {
  min_weight : R;
  max_weight : R;
  split_sources : bool;
}.

(** What the generator [classical_split_filter] yields: a subtask
    [(classical, block, rlzs_by_gsim, params)] handed to the task
    distribution, the result [classical(light, ...)] computed in the same
    task, or the empty result when there is nothing to do. *)
Inductive Yielded :=
  | Subtask (block : list Source)
  | Result (light : list Source)
  | EmptyResult.

(** The loop over [blocks[:-1]]: the light list and the subtasks yielded. *)
Definition split_blocks (minw : R) (light : list Source)
    (blocks : list (list Source)) : list Source * list Yielded :=
  foldl (λ acc block,
           if decide (General.block_weight source_weight block < minw)
           then (acc.1 ++ block, acc.2)               (* extend light sources *)
           else (acc.1, acc.2 ++ [Subtask block]))    (* heavy block *)
        (light, []) blocks.

(** The first part of [classical_split_filter]: the block size [maxw] and
    the sources to partition.  [srcfilter_split] is [srcfilter.split], the
    sub-sources that survive the filter, in order; the source filter is
    read from the monitor. *)
Definition split_phase (srcfilter_split : list Source → list Source)
    (srcs : list Source) (params : Params) : R * list Source :=
  let minw := min_weight params in
  if split_sources params then
    (max_weight params / 5,                      (* produce more subtasks *)
     filter (λ s, source_weight s < minw) srcs
     ++ srcfilter_split (filter (λ s, minw <= source_weight s) srcs))
  else (max_weight params / 2, srcs).

Definition classical_split_filter
    (srcfilter_split : list Source → list Source)
    (srcs : list Source) (params : Params) : list Yielded :=
  let minw := min_weight params in
  let '(maxw, sources) := split_phase srcfilter_split srcs params in
  let blocks := General.block_splitter sources maxw source_weight in
  match last blocks with
  | None => [EmptyResult]
  | Some final =>
      let '(light, subtasks) := split_blocks minw final (removelast blocks) in
      subtasks ++ [Result light]
  end.
End Classical.

(** * openquake.calculators.disaggregation *)

Module Disaggregation.
Import Contexts Disagg.

(** numpy integers are 64-bit and wrap around. *)
Definition wrap_int64 (z : Z) : Z := ((z + 2 ^ 63) mod 2 ^ 64 - 2 ^ 63)%Z.

(** [numpy.prod(shape)] of a list of Python integers. *)
Definition np_prod (shape : list Z) : Z :=
  foldl (λ acc d, wrap_int64 (acc * d)) 1%Z shape.

(** What the calculation does that is visible from outside: datasets
    written to the datastore and tasks sent to the workers. *)
Inductive Event :=
  | Stored (key : string)
  | Submitted (task_no : nat).

(** A computation of the calculator: the events so far, in order, and the
    value returned or the exception raised. *)
Definition Calc (A : Type) : Type := list Event → list Event * result A.

Definition calc_ret {A} (a : A) : Calc A := λ evs, (evs, Ok a).
Definition calc_raise {A} (e : exn) : Calc A := λ evs, (evs, Raise e).
Definition calc_bind {A B} (m : Calc A) (f : A → Calc B) : Calc B :=
  λ evs, match m evs with
         | (evs', Ok a) => f a evs'
         | (evs', Raise e) => (evs', Raise e)
         end.
Definition calc_lift {A} (r : result A) : Calc A := λ evs, (evs, r).
Definition store (key : string) : Calc unit :=
  λ evs, (evs ++ [Stored key], Ok ()).
Definition submit (task_no : nat) : Calc unit :=
  λ evs, (evs ++ [Submitted task_no], Ok ()).

Notation "x ←← m ; f" := (calc_bind m (λ x, f))
  (at level 20, m at level 100, f at level 200, only parsing, right associativity).
Notation "m ;; f" := (calc_bind m (λ _, f))
  (at level 100, f at level 200, only parsing, right associativity).

Definition save_bin_edges (b : BinEdges) : Calc unit :=
  match lon_edges b !! O, lat_edges b !! O with
  | Some lon0, Some lat0 =>
      let T := Z.of_nat (length (trts b)) in
      let shape :=
        [Z.of_nat (length (mag_edges b)) - 1;
         Z.of_nat (length (dist_edges b)) - 1;
         Z.of_nat (length lon0) - 1; Z.of_nat (length lat0) - 1;
         Z.of_nat (length (eps_edges b)) - 1]%Z ++ [T] in
      let matrix_size := np_prod shape in
      if decide (1000000 < matrix_size)%Z then calc_raise ValueError
      else
        store "disagg-bins/Mag" ;;
        store "disagg-bins/Dist" ;;
        store "disagg-bins/Lon" ;;
        store "disagg-bins/Lat" ;;
        store "disagg-bins/Eps" ;;
        store "disagg-bins/TRT"
  | _, _ => calc_raise KeyError
  end.

(** The inputs of [full_disaggregation] that decide its control flow.  The
    hazard curves, the logic tree and the rupture data are outside the
    embedding: [atomic] tells whether some source group is atomic, [num_rlzs]
    is R, [ok_sites] is what [check_poes_disagg] lets through, [num_tasks]
    and [transfer_too_big] are what [compute] derives from the stored
    ruptures (the number of task arguments and the outcome of its
    data-transfer check). *)
Record Calculator := {
  geo : GeoUtils;
  oqparam : OqParam;
  sitecol : list Site;
  source_mags : list (string * list float);
  atomic : bool;
  num_rlzs : nat;
  iml_disagg : bool;
  ok_sites : list nat;
  num_tasks : nat;
  transfer_too_big : bool;
}.

(** [compute]: one task submitted per element of [allargs]. *)
Definition compute (self : Calculator) : Calc unit :=
  if transfer_too_big self then calc_raise ValueError
  else
    store "disagg_task" ;;
    foldr (λ task_no rest, submit task_no ;; rest) (calc_ret ())
          (seq 0 (num_tasks self)).

Definition full_disaggregation (self : Calculator) : Calc unit :=
  let oq := oqparam self in
  all_edges ←← calc_lift (get_edges_shapedic (geo self) oq (sitecol self)
                            (source_mags self));
  let '(bin_edges, shapedic) := all_edges in
  (if atomic self then calc_raise NotImplementedError else calc_ret ()) ;;
  (* build array rlzs (N, Z) *)
  let Z_ := match rlz_index oq with
            | None => match num_rlzs_disagg oq with O => 1%nat | n => n end
            | Some idx => length idx
            end in
  store "best_rlzs" ;;
  (if decide (Z_ ≤ num_rlzs self) then calc_ret ()
   else calc_raise AssertionError) ;;
  (if iml_disagg self then calc_ret ()
   else match ok_sites self with
        | [] => calc_raise SystemExit
        | _ => calc_ret ()
        end) ;;
  store "iml4" ;;
  store "poe4" ;;
  save_bin_edges bin_edges ;;
  compute self.
End Disaggregation.

(** * Concrete inputs

    The contexts of contexts_test.py and other inputs on which the
    properties below are exercised. *)

Module TestData.
Import Contexts.
Local Open Scope R_scope.

(** [RuptureContext([('occurrence_rate', rate)])]. *)
Definition parametric_ctx (rate : R) : RuptureContext :=
  {| occurrence_rate := Fin rate; probs_occur := []; weight := 1;
     sids := [O]; rup_params := ∅; arrays := ∅ |}.

(** [RuptureContext([('occurrence_rate', numpy.nan), ('probs_occur', p)])]. *)
Definition nonparametric_ctx (p : list R) : RuptureContext :=
  {| occurrence_rate := NaN; probs_occur := p; weight := 1;
     sids := [O]; rup_params := ∅; arrays := ∅ |}.

(** The contexts of [CollapseTestCase.test_mixed]. *)
Definition mixed_ctxs : list RuptureContext :=
  [parametric_ctx (1 / 1000); parametric_ctx (2 / 1000);
   nonparametric_ctx [999 / 1000; 1 / 1000];
   nonparametric_ctx [998 / 1000; 2 / 1000]].

(** A malformed context: the "probabilities" 2 and 3 and a "probability" of
    exceedance -1 give the raw sum 2 + 3 * 2 = 8. *)
Definition malformed_ctx : RuptureContext := nonparametric_ctx [2; 3].

(** A context maker without requirements, at collapse level 2. *)
Definition plain_cmaker : ContextMaker :=
  {| trt := "Active Shallow Crust"; maximum_distance := λ _ _, 200;
     REQUIRES_DISTANCES := []; REQUIRES_RUPTURE_PARAMETERS := [];
     REQUIRES_SITES_PARAMETERS := []; collapse_level := 2; reqv := None;
     num_levels := 1; num_gsims := 1; investigation_time := 50;
     gsims_poes := λ _ _, [1 / 2]; make_rctx := λ _, None |}.

(** Two sites, one at exactly the maximum distance of [plain_cmaker]
    (200 km) from [point_rupture] and one a kilometre beyond; [far_rupture]
    is out of reach of both. *)
Definition site_at (sid : nat) (d : R) : Site :=
  {| site_id := sid; site_lon := d; site_lat := 0; site_params := ∅ |}.

Definition boundary_sites : SiteCollection :=
  {| sitecol_sites := [site_at 0 200; site_at 1 201];
     sitecol_complete := [site_at 0 200; site_at 1 201] |}.

Definition point_rupture : Rupture :=
  {| rup_id := 1; rup_mag := 6; rup_surface := None;
     hypocenter_distance_to_mesh := λ _ s, site_lon s;
     hypocenter_depth := 10; get_cdppvalue := λ _, 0; rup_sites := None |}.

Definition far_rupture : Rupture :=
  {| rup_id := 2; rup_mag := 6; rup_surface := None;
     hypocenter_distance_to_mesh := λ _ s, site_lon s + 100;
     hypocenter_depth := 10; get_cdppvalue := λ _, 0; rup_sites := None |}.

(** Two composers over [plain_cmaker], for independent and for mutually
    exclusive ruptures. *)
Definition indep_maker : PmapMaker :=
  {| cmaker := plain_cmaker; rup_indep := true; maxsites := 512000 |}.

Definition mutex_maker : PmapMaker :=
  {| cmaker := plain_cmaker; rup_indep := false; maxsites := 512000 |}.

(** A source that alone outweighs the maximum weight, and a small one. *)
Definition big_source : Classical.Source :=
  {| Classical.source_id := 0; Classical.source_weight := 100 |}.
Definition small_source : Classical.Source :=
  {| Classical.source_id := 1; Classical.source_weight := 1 |}.
Definition small_params : Classical.Params :=
  {| Classical.min_weight := 1; Classical.max_weight := 10;
     Classical.split_sources := false |}.

(** A flat-earth geometry, a job with half-unit magnitude bins and 10 km
    distance bins, one tectonic region with magnitudes 4.5 and 6, and a
    rupture whose distance is exactly the last distance edge. *)
Definition flat_geo : Disagg.GeoUtils :=
  {| Disagg.KM_TO_DEGREES := 1 / 100;
     Disagg.angular_distance := λ km _, km / 100;
     Disagg.cross_idl := λ _, false;
     Disagg.get_longitudinal_extent := λ lon1 lon2, lon2 - lon1 |}.

Definition small_job : Disagg.OqParam :=
  {| Disagg.truncation_level := 3; Disagg.num_rlzs_disagg := 1;
     Disagg.rlz_index := None; Disagg.num_epsilon_bins := 1;
     Disagg.mag_bin_width := 0.5; Disagg.distance_bin_width := 10;
     Disagg.coordinate_bin_width := 1;
     Disagg.oq_maximum_distance := λ _, 200%float;
     Disagg.num_imts := 1; Disagg.poes_disagg := [1 / 10] |}.

Definition small_mags : list (string * list float) :=
  [("Active Shallow Crust"%string, [4.5; 6]%float)].





(** Bin edges with 2^16 bins of magnitude, distance, longitude and latitude,
    one bin of epsilon and one tectonic region: 2^64 cells. *)
Definition many_edges : list R :=
  map (λ i, IZR i) (Disagg.arange 0 65537).

Definition many_float_edges : list float :=
  map Binary64.float_of_int (Disagg.arange 0 65537).

Definition huge_bin_edges : Disagg.BinEdges :=
  {| Disagg.mag_edges := many_float_edges;
     Disagg.dist_edges := many_float_edges;
     Disagg.lon_edges := {[ O := many_edges ]};
     Disagg.lat_edges := {[ O := many_edges ]};
     Disagg.eps_edges := [-3; 3];
     Disagg.trts := ["Active Shallow Crust"%string] |}.

(** A job whose bin edges give 2^16 bins of magnitude, distance, longitude
    and latitude: magnitude bins of 2^-13 for the magnitudes 1 and 9,
    distance bins of 1/16 km up to 4096 km and coordinate bins of 1/800
    of a degree, around one site, in the flat geometry; and a calculator
    on this job whose other checks pass and that has two tasks to
    submit. *)
Definition overflow_job : Disagg.OqParam :=
  {| Disagg.truncation_level := 3; Disagg.num_rlzs_disagg := 1;
     Disagg.rlz_index := None; Disagg.num_epsilon_bins := 1;
     Disagg.mag_bin_width := 0x1p-13;
     Disagg.distance_bin_width := 0.0625;
     Disagg.coordinate_bin_width := 1 / 800;
     Disagg.oq_maximum_distance := λ _, 4096%float;
     Disagg.num_imts := 1; Disagg.poes_disagg := [1 / 10] |}.

Definition overflow_mags : list (string * list float) :=
  [("Active Shallow Crust"%string, [1; 9]%float)].

Definition overflow_calculator : Disaggregation.Calculator :=
  {| Disaggregation.geo := flat_geo;
     Disaggregation.oqparam := overflow_job;
     Disaggregation.sitecol := [site_at 0 0];
     Disaggregation.source_mags := overflow_mags;
     Disaggregation.atomic := false;
     Disaggregation.num_rlzs := 1;
     Disaggregation.iml_disagg := true;
     Disaggregation.ok_sites := [O];
     Disaggregation.num_tasks := 2;
     Disaggregation.transfer_too_big := false |}.

(** A job with 2^16 bins of magnitude, 20 of distance and 4 of longitude
    and of latitude: 20971520 cells. *)
Definition large_job : Disagg.OqParam :=
  {| Disagg.truncation_level := 3; Disagg.num_rlzs_disagg := 1;
     Disagg.rlz_index := None; Disagg.num_epsilon_bins := 1;
     Disagg.mag_bin_width := 0x1p-13;
     Disagg.distance_bin_width := 10;
     Disagg.coordinate_bin_width := 1;
     Disagg.oq_maximum_distance := λ _, 200%float;
     Disagg.num_imts := 1; Disagg.poes_disagg := [1 / 10] |}.

Definition large_calculator : Disaggregation.Calculator :=
  {| Disaggregation.geo := flat_geo;
     Disaggregation.oqparam := large_job;
     Disaggregation.sitecol := [site_at 0 0];
     Disaggregation.source_mags := overflow_mags;
     Disaggregation.atomic := false;
     Disaggregation.num_rlzs := 1;
     Disaggregation.iml_disagg := true;
     Disaggregation.ok_sites := [O];
     Disaggregation.num_tasks := 2;
     Disaggregation.transfer_too_big := false |}.
End TestData.

(** * Vocabulary of the properties *)

Section vocabulary.
Import Contexts Disagg Disaggregation.
Local Open Scope R_scope.

(** A discrete probability mass function over occurrence counts. *)
Definition is_pmf (p : list R) : Prop :=
  Forall (λ v, 0 <= v)%R p ∧ sumR p = 1%R.

(** The data-model invariant of a context: a non-parametric context
    carries a PMF in [probs_occur]. *)
Definition well_formed (ctx : Contexts.RuptureContext) : Prop :=
  match Contexts.occurrence_rate ctx with
  | NaN => is_pmf (Contexts.probs_occur ctx)
  | Fin _ => True
  end.

(** The attributes read by the grouping key of [collapse_the_ctxs] are
    set, as they are on the contexts made by the same [ContextMaker]: the
    magnitude at collapse level 3 and above, the required rupture
    parameters below, and the required distances. *)
Definition has_key_attributes (cm : Contexts.ContextMaker)
    (ctx : Contexts.RuptureContext) : Prop :=
  ((3 <= Contexts.collapse_level cm)%Z →
   is_Some (Contexts.rup_params ctx !! "mag"%string))
  ∧ ((Contexts.collapse_level cm < 3)%Z →
     Forall (λ par, is_Some (Contexts.rup_params ctx !! par))
            (Contexts.REQUIRES_RUPTURE_PARAMETERS cm))
  ∧ Forall (λ dst, is_Some (Contexts.arrays ctx !! dst))
           (Contexts.REQUIRES_DISTANCES cm).

(** The composed probability of no exceedance of independent ruptures. *)
Definition composed (tom : TOM) (ctxs : list RuptureContext) (poe : R) : R :=
  prodR (map (λ ctx, get_probability_no_exceedance tom ctx poe) ctxs).

(** *** Parametric contexts: the rates add up *)

Definition rate_of (ctx : RuptureContext) : R :=
  match occurrence_rate ctx with Fin r => r | NaN => 0 end.

(** What happens to one entry: kept when it is at or above the minimum;
    when it changes, it was below the minimum and becomes the minimum. *)
Definition rounded_up (m v v' : R) : Prop :=
  (m <= v → v' = v) ∧ (v' ≠ v → v < m ∧ v' = m).

(** The distance of a site that [get_distances(rup, sites, 'rrup')]
    computes, and the test of the filter. *)
Definition rrup_distance (rup : Contexts.Rupture) : Contexts.Site → R :=
  match Contexts.rup_surface rup with
  | None => Contexts.hypocenter_distance_to_mesh rup true
  | Some surf => Contexts.get_min_distance surf
  end.

Abbreviation within_distance cm rup :=
  (λ s : Contexts.Site,
     (rrup_distance rup s
      <= Contexts.maximum_distance cm (Contexts.trt cm) (Contexts.rup_mag rup))%R).

(** The ruptures that [make_ctxs] keeps: some site of the collection they
    are evaluated on is within the maximum distance. *)
Definition near (cm : Contexts.ContextMaker) (sites : Contexts.SiteCollection)
    (rup : Contexts.Rupture) : Prop :=
  Exists (within_distance cm rup)
         (Contexts.sitecol_sites (default sites (Contexts.rup_sites rup))).

(** The contributions of a block of contexts, in the order of the loops of
    [_update_pmap]: for every context of the block and every site of the
    context, the context, the site id and the array of no-exceedance
    probabilities of the rupture at that site. *)
Definition block_contributions (tom : R → R → R) (cm : Contexts.ContextMaker)
    (block : list Contexts.RuptureContext)
    : list (Contexts.RuptureContext * nat * list R) :=
  flat_map (λ ctx_poes : Contexts.RuptureContext * list (list R),
    map (λ sid_pne : nat * list R, (ctx_poes.1, sid_pne.1, sid_pne.2))
        (zip (Contexts.sids ctx_poes.1)
             (map (map (Contexts.get_probability_no_exceedance tom ctx_poes.1))
                  ctx_poes.2)))
    (Contexts.gen_ctx_poes cm block).

(** The contributions folded into the map by [_update_pmap], block after
    block. *)
Definition contributions (tom : R → R → R) (self : Contexts.PmapMaker)
    (ctxs : list Contexts.RuptureContext)
    : list (Contexts.RuptureContext * nat * list R) :=
  flat_map (block_contributions tom (Contexts.cmaker self))
    (General.block_splitter ctxs (Contexts.maxsites self)
       (λ ctx, INR (length (Contexts.sids ctx)))).

(** The site rows of a list of contexts, in the order of the loops of
    [_update_pmap]: every context paired with every one of its site
    ids. *)
Definition site_rows (ctxs : list Contexts.RuptureContext)
    : list (Contexts.RuptureContext * nat) :=
  flat_map (λ ctx, map (λ sid, (ctx, sid)) (Contexts.sids ctx)) ctxs.

(** One update for every site row of a block: the context, the site id and
    the no-exceedance probabilities that the temporal occurrence model of
    the context makes of the row of exceedance probabilities that the
    ground-motion models return at the position of the site row in the
    block. *)
Definition block_updates (tom : R → R → R) (cm : Contexts.ContextMaker)
    (block : list Contexts.RuptureContext)
    : list (Contexts.RuptureContext * nat * list R) :=
  imap (λ n cs, (cs.1, cs.2,
                 map (Contexts.get_probability_no_exceedance tom cs.1)
                     (Contexts.gsims_poes cm block n)))
       (site_rows block).

(** What one update does to the accumulator of its site. *)
Definition site_update (rup_indep : bool) (probs : list R)
    (u : Contexts.RuptureContext * nat * list R) : list R :=
  if rup_indep then zip_with Rmult probs u.2
  else zip_with (λ p q, p + (1 - q) * Contexts.weight u.1.1)%R probs u.2.

(** All the values stored in a map are probabilities. *)
Definition in_unit_interval (pmap : Contexts.ProbabilityMap) : Prop :=
  map_Forall (λ _ a, Forall (λ v, 0 <= v <= 1)%R a) (Contexts.curves pmap).

(** The conditional probabilities of exceedance that the ground-motion
    models return and the no-exceedance probabilities that the temporal
    occurrence model makes of them are probabilities. *)
Definition probabilities_valid (tom : R → R → R) (cm : Contexts.ContextMaker)
    (ctxs : list Contexts.RuptureContext) : Prop :=
  (∀ ctx poe, ctx ∈ ctxs → (0 <= poe <= 1)%R →
     (0 <= Contexts.get_probability_no_exceedance tom ctx poe <= 1)%R)
  ∧ (∀ block n, Forall (λ p, 0 <= p <= 1)%R (Contexts.gsims_poes cm block n)).

(** The per-site accumulator a contribution is folded into: the stored
    array, or the one [setdefault] creates. *)
Definition accumulator (rup_indep : bool) (pmap : Contexts.ProbabilityMap)
    (sid : nat) : list R :=
  default (replicate (Contexts.shape_y pmap * Contexts.shape_z pmap)
                     (Contexts.bool_to_R rup_indep))
          (Contexts.curves pmap !! sid).




(** The ruptures of the data: distance, longitude, latitude and the array
    of no-exceedance probabilities of each. *)
Definition ruptures (bdata : BinData) : list (R * R * R * list R) :=
  zip (zip (zip (bd_dists bdata) (bd_lons bdata)) (bd_lats bdata))
      (bd_pnes bdata).



(** *** The scatter into the matrix *)


(** The number of cells of the matrix, as a mathematical integer. *)
Definition number_of_cells (shape : list Z) : Z := foldr Z.mul 1%Z shape.

(** The bin counts that [save_bin_edges] multiplies. *)
Definition bin_shape (b : Disagg.BinEdges) (lon0 lat0 : list R) : list Z :=
  [Z.of_nat (length (Disagg.mag_edges b)) - 1;
   Z.of_nat (length (Disagg.dist_edges b)) - 1;
   Z.of_nat (length lon0) - 1; Z.of_nat (length lat0) - 1;
   Z.of_nat (length (Disagg.eps_edges b)) - 1;
   Z.of_nat (length (Disagg.trts b))]%Z.

Definition bin_datasets : list Event :=
  [Stored "disagg-bins/Mag"; Stored "disagg-bins/Dist";
   Stored "disagg-bins/Lon"; Stored "disagg-bins/Lat";
   Stored "disagg-bins/Eps"; Stored "disagg-bins/TRT"].

(** The checks of [full_disaggregation] before the bin edges are saved. *)
Definition checks_pass (self : Calculator) : Prop :=
  atomic self = false
  ∧ (match rlz_index (oqparam self) with
     | None => match num_rlzs_disagg (oqparam self) with O => 1 | n => n end
     | Some idx => length idx
     end ≤ num_rlzs self)%nat
  ∧ (iml_disagg self = true ∨ ok_sites self ≠ []).

End vocabulary.

Abbreviation within_distance cm rup :=
  (λ s : Contexts.Site,
     (rrup_distance rup s
      <= Contexts.maximum_distance cm (Contexts.trt cm) (Contexts.rup_mag rup))%R).

(** * Properties *)

(** ** Weighted sums of arrays *)

Section weighted_sums.
Local Open Scope R_scope.

Lemma sumR_app l1 l2 : sumR (l1 ++ l2) = sumR l1 + sumR l2.
Proof. induction l1 as [|x l1 IH]; simpl; [lra | rewrite IH; lra]. Qed.

Lemma prodR_app l1 l2 : prodR (l1 ++ l2) = prodR l1 * prodR l2.
Proof. induction l1 as [|x l1 IH]; simpl; [lra | rewrite IH; lra]. Qed.

Lemma ev_ext φ ψ o :
  (∀ k, (k < length o)%nat → φ k = ψ k) → ev φ o = ev ψ o.
Proof.
  revert φ ψ. induction o as [|c o IH]; intros φ ψ H; simpl; [done|].
  rewrite (H O) by (simpl; lia).
  f_equal. apply IH. intros k Hk. apply H. simpl. lia.
Qed.

Lemma ev_zero_fun o : ev (λ _, 0) o = 0.
Proof. induction o as [|c o IH]; simpl; [done | rewrite IH; lra]. Qed.

Lemma ev_linear (a : R) φ ψ o :
  ev (λ k, a * φ k + ψ k) o = a * ev φ o + ev ψ o.
Proof.
  revert φ ψ. induction o as [|c o IH]; intros φ ψ; simpl; [lra|].
  rewrite (IH (λ k, φ (S k)) (λ k, ψ (S k))). lra.
Qed.

Lemma ev_scale (a : R) φ o : ev (λ k, a * φ k) o = a * ev φ o.
Proof.
  rewrite <- (Rplus_0_r (a * ev φ o)), <- (ev_zero_fun o), <- ev_linear.
  apply ev_ext. intros; lra.
Qed.

Lemma ev_const_one o : ev (λ _, 1) o = sumR o.
Proof. induction o as [|c o IH]; simpl; [done | rewrite IH; lra]. Qed.

Lemma ev_replicate_zero φ n : ev φ (replicate n 0) = 0.
Proof.
  revert φ. induction n as [|n IH]; intros φ; simpl; [done|].
  rewrite IH. lra.
Qed.

Lemma ev_alter φ (v : R) k o :
  (k < length o)%nat →
  ev φ (alter (λ x, x + v) k o) = ev φ o + v * φ k.
Proof.
  revert φ k. induction o as [|c o IH]; intros φ k Hk; simpl in *; [lia|].
  destruct k as [|k]; cbn; [lra|].
  fold (alter (λ x, x + v) k o).
  rewrite (IH (λ k, φ (S k))) by lia. lra.
Qed.

Lemma ev_delta k o : ev (delta k) o = nth k o 0.
Proof.
  revert k. induction o as [|c o IH]; intros k; simpl.
  - by destruct k.
  - destruct k as [|k].
    + unfold delta at 1. simpl.
      rewrite (ev_ext _ (λ _, 0)), ev_zero_fun; [lra|].
      intros j _. unfold delta. by case_decide.
    + unfold delta at 1. simpl.
      rewrite (ev_ext _ (delta k)), IH; [lra|].
      intros j _. unfold delta. repeat case_decide; done || lia.
Qed.

(** Exchange of two nested weighted sums. *)
Lemma ev_swap (F : nat → nat → R) a b :
  ev (λ i, ev (λ j, F i j) b) a = ev (λ j, ev (λ i, F i j) a) b.
Proof.
  revert F. induction a as [|c a IH]; intros F; simpl.
  - by rewrite ev_zero_fun.
  - rewrite (IH (λ i j, F (S i) j)).
    by rewrite <- (ev_linear c (λ j, F O j)).
Qed.

(** An array is determined by its length and its weighted sums. *)
Lemma ev_inj o o' :
  length o = length o' → (∀ φ, ev φ o = ev φ o') → o = o'.
Proof.
  intros Hlen Hev. apply (nth_ext _ _ 0 0); [done|].
  intros k _. by rewrite <- !ev_delta.
Qed.

Lemma ev_seq φ o :
  ev φ o = sumR (map (λ i, nth i o 0 * φ i) (seq 0 (length o))).
Proof.
  revert φ. induction o as [|c o IH]; intros φ; simpl; [done|].
  rewrite (IH (λ k, φ (S k))), <- seq_shift, map_map. done.
Qed.

Lemma sumR_imap_ev (φ : nat → R) o :
  sumR (imap (λ i v, v * φ i) o) = ev φ o.
Proof.
  revert φ. induction o as [|c o IH]; intros φ; simpl; [done|].
  by rewrite <- (IH (λ k, φ (S k))).
Qed.
End weighted_sums.

(** ** PMF convolution *)

Section combine_pmf.
Import Contexts.
Local Open Scope R_scope.

Lemma sumR_map_filter {A} (P : A → Prop) `{∀ x, Decision (P x)} (f : A → R) l :
  sumR (map f (filter P l)) = sumR (map (λ x, if decide (P x) then f x else 0) l).
Proof.
  induction l as [|x l IH]; [done|].
  rewrite filter_cons. simpl. destruct (decide (P x)); simpl; rewrite IH; lra.
Qed.

Lemma sumR_map_list_prod {A B} (g : A * B → R) (l1 : list A) (l2 : list B) :
  sumR (map g (list_prod l1 l2))
  = sumR (map (λ i, sumR (map (λ j, g (i, j)) l2)) l1).
Proof.
  induction l1 as [|x l1 IH]; [done|].
  simpl. by rewrite map_app, sumR_app, map_map, IH.
Qed.

Lemma sumR_map_ext {A} (f g : A → R) l :
  (∀ x, x ∈ l → f x = g x) → sumR (map f l) = sumR (map g l).
Proof.
  induction l as [|x l IH]; intros H; [done|].
  simpl. rewrite (H x), IH; [done| |]; intros; try apply H; by constructor.
Qed.

Lemma sumR_map_scale {A} (a : R) (f : A → R) l :
  sumR (map (λ x, a * f x) l) = a * sumR (map f l).
Proof. induction l as [|x l IH]; simpl; [lra | rewrite IH; lra]. Qed.

(** The inner loop, over any list of indices [js] that stay in range. *)
Lemma inner_loop φ (a : R) (i : nat) (b : list R) js o :
  (∀ j, j ∈ js → (i + j < length o)%nat) →
  let o' := foldl (λ o j, alter (λ x, x + a * nth j b 0) (i + j)%nat o) o js in
  length o' = length o ∧
  ev φ o' = ev φ o + a * sumR (map (λ j, nth j b 0 * φ (i + j)%nat) js).
Proof.
  revert o. induction js as [|j js IH]; intros o Hin; simpl; [split; [done|lra]|].
  destruct (IH (alter (λ x, x + a * nth j b 0) (i + j)%nat o)) as [Hl He].
  { intros j' Hj'. rewrite length_alter. apply Hin. by constructor. }
  rewrite length_alter in Hl. split; [done|].
  rewrite He, ev_alter by (apply Hin; constructor). lra.
Qed.

(** The outer loop. *)
Lemma outer_loop φ (a b : list R) idxs o :
  (∀ i j, i ∈ idxs → (j < length b)%nat → (i + j < length o)%nat) →
  let o' := foldl (λ o i,
              foldl (λ o j, alter (λ x, x + nth i a 0 * nth j b 0) (i + j)%nat o)
                    o (seq 0 (length b))) o idxs in
  length o' = length o ∧
  ev φ o' = ev φ o
            + sumR (map (λ i, nth i a 0 * ev (λ j, φ (i + j)%nat) b) idxs).
Proof.
  revert o. induction idxs as [|i idxs IH]; intros o Hin; simpl; [split; [done|lra]|].
  destruct (inner_loop φ (nth i a 0) i b (seq 0 (length b)) o) as [Hl He].
  { intros j Hj. apply Hin; [constructor|]. apply elem_of_seq in Hj. lia. }
  cbv zeta in Hl, He.
  match goal with |- context [foldl _ (foldl ?f o ?js) idxs] =>
    set (o1 := foldl f o js) in * end.
  destruct (IH o1) as [Hl' He'].
  { intros i' j Hi' Hj. rewrite Hl. apply Hin; [by constructor|done]. }
  cbv zeta in Hl', He'. split; [congruence|].
  rewrite He', He, (ev_seq (λ j, φ (i + j)%nat) b). lra.
Qed.

Lemma combine_pmf_ok o1 o2 :
  (0 < length o1 + length o2)%nat →
  ∃ o, combine_pmf o1 o2 = Ok o
       ∧ length o = (length o1 + length o2 - 1)%nat
       ∧ ∀ φ, ev φ o = ev (λ i, ev (λ j, φ (i + j)%nat) o2) o1.
Proof.
  intros Hpos. unfold combine_pmf, zeros.
  destruct (decide _) as [Hneg|_]; [lia|]. cbn [mbind result_bind].
  replace (Z.to_nat (Z.of_nat (length o1) + Z.of_nat (length o2) - 1))
    with (length o1 + length o2 - 1)%nat by lia.
  eexists. split; [reflexivity|].
  assert (Hrange : ∀ i j, i ∈ seq 0 (length o1) → (j < length o2)%nat →
            (i + j < length (replicate (length o1 + length o2 - 1) 0%R))%nat).
  { intros i j Hi Hj. rewrite length_replicate. apply elem_of_seq in Hi. lia. }
  split.
  - destruct (outer_loop (λ _, 0) o1 o2 _ _ Hrange) as [Hl _].
    cbv zeta in Hl. by rewrite Hl, length_replicate.
  - intros φ. destruct (outer_loop φ o1 o2 _ _ Hrange) as [_ He].
    cbv zeta in He. rewrite He, ev_replicate_zero, (ev_seq _ o1). lra.
Qed.

Lemma combine_pmf_comm o1 o2 : combine_pmf o1 o2 = combine_pmf o2 o1.
Proof.
  destruct (decide (0 < length o1 + length o2)%nat) as [Hpos|Hzero].
  - destruct (combine_pmf_ok o1 o2 Hpos) as (o & -> & Hl & He).
    destruct (combine_pmf_ok o2 o1) as (o' & -> & Hl' & He'); [lia|].
    f_equal. apply ev_inj; [lia|].
    intros φ. rewrite He, He', ev_swap.
    apply ev_ext; intros j _. apply ev_ext; intros i _. f_equal. lia.
  - destruct o1, o2; simpl in Hzero; try lia. done.
Qed.

Lemma combine_pmf_assoc o1 o2 o3 :
  o1 ≠ [] → o2 ≠ [] → o3 ≠ [] →
  (o12 ← combine_pmf o1 o2; combine_pmf o12 o3)
  = (o23 ← combine_pmf o2 o3; combine_pmf o1 o23).
Proof.
  intros H1 H2 H3.
  assert (0 < length o1 ∧ 0 < length o2 ∧ 0 < length o3)%nat as (?&?&?).
  { destruct o1, o2, o3; simpl; try done. lia. }
  destruct (combine_pmf_ok o1 o2) as (o12 & -> & Hl12 & He12); [lia|].
  destruct (combine_pmf_ok o2 o3) as (o23 & -> & Hl23 & He23); [lia|].
  cbn [mbind result_bind].
  destruct (combine_pmf_ok o12 o3) as (l & -> & Hl & He); [lia|].
  destruct (combine_pmf_ok o1 o23) as (r & -> & Hr & Her); [lia|].
  f_equal. apply ev_inj; [lia|].
  intros φ. rewrite He, Her, He12.
  apply ev_ext; intros i _. rewrite He23.
  apply ev_ext; intros j _. apply ev_ext; intros k _. f_equal. lia.
Qed.

Lemma combine_pmf_sum o1 o2 o :
  combine_pmf o1 o2 = Ok o → sumR o = sumR o1 * sumR o2.
Proof.
  intros Hc.
  destruct (decide (0 < length o1 + length o2)%nat) as [Hpos|Hzero].
  - destruct (combine_pmf_ok o1 o2 Hpos) as (o' & Ho' & _ & He).
    rewrite Hc in Ho'. injection Ho' as <-.
    rewrite <- !ev_const_one, He.
    rewrite (ev_ext _ (λ _, ev (λ _, 1) o2 * 1)) by (intros; ring).
    rewrite ev_scale. ring.
  - destruct o1, o2; simpl in Hzero; try lia. done.
Qed.

(** The polynomial with coefficients [combine_pmf o1 o2] is the product of
    the polynomials with coefficients [o1] and [o2]. *)
Lemma combine_pmf_eval o1 o2 o (x : R) :
  combine_pmf o1 o2 = Ok o →
  ev (λ k, x ^ k) o = ev (λ k, x ^ k) o1 * ev (λ k, x ^ k) o2.
Proof.
  intros Hc.
  destruct (decide (0 < length o1 + length o2)%nat) as [Hpos|Hzero].
  - destruct (combine_pmf_ok o1 o2 Hpos) as (o' & Ho' & _ & He).
    rewrite Hc in Ho'. injection Ho' as <-.
    rewrite He.
    rewrite (ev_ext _ (λ i, ev (λ k, x ^ k) o2 * x ^ i)).
    + rewrite ev_scale. apply Rmult_comm.
    + intros i _. rewrite Rmult_comm, <- ev_scale. apply ev_ext; intros j _.
      rewrite pow_add. ring.
  - destruct o1, o2; simpl in Hzero; try lia. done.
Qed.

Lemma combine_pmf_entry o1 o2 o k :
  combine_pmf o1 o2 = Ok o → nth k o 0 = convolution_sum o1 o2 k.
Proof.
  intros Hc.
  destruct (decide (0 < length o1 + length o2)%nat) as [Hpos|Hzero].
  - destruct (combine_pmf_ok o1 o2 Hpos) as (o' & Ho' & _ & He).
    rewrite Hc in Ho'. injection Ho' as <-.
    rewrite <- ev_delta, He. unfold convolution_sum.
    rewrite sumR_map_filter, sumR_map_list_prod, ev_seq.
    apply sumR_map_ext; intros i _.
    rewrite ev_seq, <- sumR_map_scale.
    apply sumR_map_ext; intros j _. simpl. unfold delta.
    repeat case_decide; lra || lia.
  - destruct o1, o2; simpl in Hzero; try lia. done.
Qed.
End combine_pmf.

Section combine_pmf_claim.
Import Contexts.
Local Open Scope R_scope.

(** The doctest of [combine_pmf]. *)
Example combine_pmf_doctest :
  combine_pmf [99 / 100; 1 / 100] [98 / 100; 2 / 100]
  = Ok [9702 / 10000; 296 / 10000; 2 / 10000].
Proof.
  unfold combine_pmf, zeros. destruct (decide _) as [?|_]; [simpl in *; lia|].
  cbn. change (Z.to_nat (Z.of_nat 2 + Z.of_nat 2 - 1)) with 3%nat.
  cbn. repeat f_equal; lra.
Qed.

(** C2 -- PMF convolution.  For non-empty occurrence-count arrays [o1] (of
    length n1) and [o2] (of length n2), [combine_pmf o1 o2] returns an
    array of length n1 + n2 - 1 whose entry [k] is the convolution sum over
    the index pairs i + j = k of o1[i] * o2[j]; [combine_pmf] is
    commutative, it is associative (both groupings of three arrays return
    the same array), and it preserves mass: if both inputs sum to 1, so
    does the result. *)
Theorem combine_pmf_convolution (o1 o2 o3 : list R) :
  o1 ≠ [] → o2 ≠ [] → o3 ≠ [] →
  ∃ o12 o123,
    combine_pmf o1 o2 = Ok o12
    ∧ length o12 = (length o1 + length o2 - 1)%nat
    ∧ (∀ k, nth k o12 0 = convolution_sum o1 o2 k)
    ∧ combine_pmf o2 o1 = Ok o12
    ∧ (o12 ← combine_pmf o1 o2; combine_pmf o12 o3) = Ok o123
    ∧ (o23 ← combine_pmf o2 o3; combine_pmf o1 o23) = Ok o123
    ∧ (sumR o1 = 1 → sumR o2 = 1 → sumR o12 = 1).
Proof.
  intros H1 H2 H3.
  assert (0 < length o1 ∧ 0 < length o2 ∧ 0 < length o3)%nat as (?&?&?).
  { destruct o1, o2, o3; simpl; try done. lia. }
  destruct (combine_pmf_ok o1 o2) as (o12 & Hc & Hl & _); [lia|].
  destruct (combine_pmf_ok o12 o3) as (o123 & Hc3 & _); [lia|].
  exists o12, o123. repeat split.
  - done.
  - done.
  - intros k. by apply combine_pmf_entry.
  - by rewrite combine_pmf_comm.
  - by rewrite Hc.
  - by rewrite <- combine_pmf_assoc, Hc.
  - intros S1 S2. rewrite (combine_pmf_sum _ _ _ Hc), S1, S2. lra.
Qed.

Lemma combine_pmf_convolution_witness :
  ∃ o12, combine_pmf [99 / 100; 1 / 100] [98 / 100; 2 / 100] = Ok o12
         ∧ length o12 = 3%nat ∧ sumR o12 = 1.
Proof.
  destruct (combine_pmf_convolution
              [99 / 100; 1 / 100] [98 / 100; 2 / 100] [1])
    as (o12 & _ & Hc & Hl & _ & _ & _ & _ & Hs); [done..|].
  exists o12. split; [done|]. split; [done|].
  apply Hs; simpl; lra.
Defined.
End combine_pmf_claim.

(** ** Probability of no exceedance of a non-parametric rupture *)

Section no_exceedance.
Import Contexts TestData.
Local Open Scope R_scope.

Lemma clip_unit x : 0 <= clip x 0 1 <= 1.
Proof.
  unfold clip, Rmin, Rmax.
  repeat (destruct (Rle_dec _ _)); lra.
Qed.

Lemma clip_id x : 0 <= x <= 1 → clip x 0 1 = x.
Proof.
  intros Hx. unfold clip, Rmin, Rmax.
  repeat (destruct (Rle_dec _ _)); lra.
Qed.

(** The raw sum over occurrence counts is the polynomial with coefficients
    [probs_occur] at 1 - poes. *)
Lemma nonparametric_raw_sum tom ctx poes :
  occurrence_rate ctx = NaN →
  get_probability_no_exceedance tom ctx poes
  = clip (ev (λ i, (1 - poes) ^ i) (probs_occur ctx)) 0 1.
Proof.
  intros Hnan. unfold get_probability_no_exceedance. rewrite Hnan.
  by rewrite sumR_imap_ev.
Qed.

(** C10 -- For a non-parametric rupture context ([occurrence_rate] is NaN)
    and any conditional exceedance probability [poes], whatever
    [probs_occur] holds and whether or not [poes] is in [0, 1],
    [get_probability_no_exceedance] returns the raw sum
    Σ_i probs_occur[i] * (1 - poes)^i clipped to [0, 1], hence a value in
    [0, 1]; so does every entry when it is applied to an array. *)
Theorem nonparametric_no_exceedance_in_unit_interval
    (tom : TOM) (ctx : RuptureContext) (poes : R) (poes_array : list R) :
  occurrence_rate ctx = NaN →
  get_probability_no_exceedance tom ctx poes
  = clip (sumR (imap (λ i v, v * (1 - poes) ^ i) (probs_occur ctx))) 0 1
  ∧ 0 <= get_probability_no_exceedance tom ctx poes <= 1
  ∧ Forall (λ pne, 0 <= pne <= 1)
           (map (get_probability_no_exceedance tom ctx) poes_array).
Proof.
  intros Hnan. unfold get_probability_no_exceedance. rewrite Hnan.
  split; [done|]. split; [apply clip_unit|].
  apply Forall_map, Forall_forall. intros p _. apply clip_unit.
Qed.

Lemma nonparametric_no_exceedance_in_unit_interval_witness :
  sumR (imap (λ i v, v * (1 - (-1)) ^ i) (probs_occur malformed_ctx)) = 8
  ∧ 0 <= get_probability_no_exceedance (PoissonTOM 50) malformed_ctx (-1) <= 1.
Proof.
  split; [simpl; lra|].
  apply (nonparametric_no_exceedance_in_unit_interval
           (PoissonTOM 50) malformed_ctx (-1) []).
  reflexivity.
Defined.
End no_exceedance.

(** ** Collapse invariance *)

Section collapse.
Import Contexts.
Local Open Scope R_scope.

Variable tom : TOM.
Hypothesis tom_additive :
  ∀ r1 r2 poes, tom (r1 + r2) poes = tom r1 poes * tom r2 poes.

Lemma compose_composed ctxs poe : (compose tom ctxs poe).1 = 1 - composed tom ctxs poe.
Proof. done. Qed.

Lemma composed_singleton c poe :
  composed tom [c] poe = get_probability_no_exceedance tom c poe.
Proof. unfold composed. simpl. lra. Qed.

Lemma composed_cons c l poe :
  composed tom (c :: l) poe = get_probability_no_exceedance tom c poe * composed tom l poe.
Proof. done. Qed.

Lemma composed_app l1 l2 poe :
  composed tom (l1 ++ l2) poe = composed tom l1 poe * composed tom l2 poe.
Proof. unfold composed. by rewrite map_app, prodR_app. Qed.

Lemma composed_perm l1 l2 poe : l1 ≡ₚ l2 → composed tom l1 poe = composed tom l2 poe.
Proof.
  unfold composed. induction 1; simpl; lra || congruence.
Qed.

Lemma composed_filter (P : RuptureContext → Prop) `{∀ c, Decision (P c)} l poe :
  composed tom l poe
  = composed tom (filter (λ c, ¬ P c) l) poe * composed tom (filter P l) poe.
Proof.
  unfold composed. induction l as [|c l IH]; simpl; [lra|].
  rewrite !filter_cons. destruct (decide (P c)), (decide (¬ P c)); try done;
    simpl; rewrite IH; lra.
Qed.

Lemma foldl_fadd_rates l a :
  Forall (λ c, ¬ isnan (occurrence_rate c)) l →
  foldl fadd (Fin a) (map occurrence_rate l) = Fin (a + sumR (map rate_of l)).
Proof.
  revert a. induction l as [|c l IH]; intros a Hl; simpl.
  - f_equal. lra.
  - inversion_clear Hl as [|?? Hc Hl']. unfold rate_of at 1.
    destruct (occurrence_rate c) as [|r] eqn:Hr; [by destruct Hc|].
    simpl. rewrite IH by done. f_equal. lra.
Qed.

Lemma tom_sum_rates l poe :
  l ≠ [] → Forall (λ c, ¬ isnan (occurrence_rate c)) l →
  tom (sumR (map rate_of l)) poe = composed tom l poe.
Proof.
  unfold composed.
  induction l as [|c l IH]; intros Hne Hl; [done|].
  inversion_clear Hl as [|?? Hc Hl']. simpl.
  assert (get_probability_no_exceedance tom c poe = tom (rate_of c) poe) as ->.
  { unfold get_probability_no_exceedance, rate_of.
    destruct (occurrence_rate c); [by destruct Hc|done]. }
  destruct l as [|c' l].
  - simpl. rewrite Rplus_0_r. lra.
  - rewrite tom_additive, IH by done. done.
Qed.

Lemma parametric_merge c0 l poe :
  l ≠ [] → Forall (λ c, ¬ isnan (occurrence_rate c)) l →
  composed tom [set_occurrence_rate c0 (foldl fadd (Fin 0) (map occurrence_rate l))] poe
  = composed tom l poe.
Proof.
  intros Hne Hl. rewrite foldl_fadd_rates, composed_singleton by done.
  unfold get_probability_no_exceedance. cbn [occurrence_rate set_occurrence_rate].
  rewrite Rplus_0_l. by apply tom_sum_rates.
Qed.

(** *** Non-parametric contexts: the PMFs are convolved *)

Lemma is_pmf_nonempty p : is_pmf p → p ≠ [].
Proof. intros [_ Hs] ->. simpl in Hs. lra. Qed.

Lemma ev_bounds φ p :
  (∀ k, 0 <= φ k <= 1) → Forall (λ v, 0 <= v) p → 0 <= ev φ p <= sumR p.
Proof.
  revert φ. induction p as [|c p IH]; intros φ Hφ Hp; simpl; [lra|].
  inversion_clear Hp as [|?? Hc Hp'].
  specialize (IH (λ k, φ (S k)) (λ k, Hφ (S k)) Hp').
  specialize (Hφ O). nra.
Qed.

Lemma pow_unit x k : 0 <= x <= 1 → 0 <= x ^ k <= 1.
Proof.
  intros Hx. induction k as [|k IH]; simpl; [lra|nra].
Qed.

Lemma pmf_eval_unit p x : is_pmf p → 0 <= x <= 1 → 0 <= ev (λ k, x ^ k) p <= 1.
Proof.
  intros [Hp Hs] Hx. rewrite <- Hs. apply ev_bounds; [|done].
  intros k. by apply pow_unit.
Qed.

Lemma nonparametric_pne c poe :
  isnan (occurrence_rate c) → is_pmf (probs_occur c) → 0 <= poe <= 1 →
  get_probability_no_exceedance tom c poe
  = ev (λ k, (1 - poe) ^ k) (probs_occur c).
Proof.
  intros Hnan Hp Hpoe. rewrite nonparametric_raw_sum.
  - apply clip_id, pmf_eval_unit; [done|lra].
  - by destruct (occurrence_rate c).
Qed.

Lemma prodR_unit l : Forall (λ v, 0 <= v <= 1) l → 0 <= prodR l <= 1.
Proof. induction 1; simpl; [lra|nra]. Qed.

Lemma reduce_combine_pmf l acc :
  acc ≠ [] → Forall (λ q, q ≠ []) l →
  ∃ p, foldl (λ acc y, a ← acc; combine_pmf a y) (Ok acc) l = Ok p
       ∧ p ≠ []
       ∧ ∀ x, ev (λ k, x ^ k) p
              = ev (λ k, x ^ k) acc * prodR (map (ev (λ k, x ^ k)) l).
Proof.
  revert acc. induction l as [|q l IH]; intros acc Hacc Hl; simpl.
  - exists acc. repeat split; [done|]. intros; lra.
  - inversion_clear Hl as [|?? Hq Hl'].
    destruct (combine_pmf_ok acc q) as (o & Hc & Hlen & _).
    { destruct acc; [done|simpl; lia]. }
    rewrite Hc. destruct (IH o) as (p & Hp & Hne & Hev); [|done|].
    { destruct acc, q, o; simpl in *; done || lia. }
    exists p. repeat split; [done..|].
    intros x. rewrite Hev, (combine_pmf_eval _ _ _ x Hc). lra.
Qed.

Lemma nonparametric_merge c0 c l poe :
  0 <= poe <= 1 →
  Forall (λ c, isnan (occurrence_rate c) ∧ is_pmf (probs_occur c)) (c :: l) →
  isnan (occurrence_rate c0) →
  ∃ p, reduce combine_pmf (map probs_occur (c :: l)) = Ok p
       ∧ composed tom [set_probs_occur c0 p] poe = composed tom (c :: l) poe.
Proof.
  intros Hpoe Hl Hc0. inversion_clear Hl as [|?? [Hc Hpc] Hl'].
  destruct (reduce_combine_pmf (map probs_occur l) (probs_occur c))
    as (p & Hp & Hne & Hev).
  { by apply is_pmf_nonempty. }
  { apply Forall_map. eapply Forall_impl; [done|].
    intros ? [_ ?]. by apply is_pmf_nonempty. }
  exists p. split; [done|].
  assert (Hl : composed tom l poe
               = prodR (map (ev (λ k, (1 - poe) ^ k)) (map probs_occur l))).
  { unfold composed. clear Hp Hev. induction Hl' as [|c' l' [??] ? IH]; [done|].
    simpl. rewrite IH, nonparametric_pne by done. done. }
  assert (Hunit : 0 <= ev (λ k, (1 - poe) ^ k) p <= 1).
  { rewrite Hev, <- Hl.
    pose proof (pmf_eval_unit (probs_occur c) (1 - poe) Hpc ltac:(lra)).
    assert (0 <= composed tom l poe <= 1); [|nra].
    rewrite Hl. apply prodR_unit, Forall_map, Forall_map.
    eapply Forall_impl; [done|]. intros c' [_ Hp']. simpl.
    apply pmf_eval_unit; [done|lra]. }
  rewrite composed_singleton, composed_cons.
  rewrite nonparametric_raw_sum by (simpl; by destruct (occurrence_rate c0)).
  cbn [probs_occur set_probs_occur]. rewrite clip_id by done.
  rewrite Hev, (nonparametric_pne c) by done. rewrite Hl. lra.
Qed.
(** *** [_collapse] *)

Lemma _collapse_invariant ctxs poe :
  0 <= poe <= 1 → Forall well_formed ctxs →
  ∃ out, _collapse ctxs = Ok out
         ∧ (length out ≤ length ctxs)%nat
         ∧ composed tom out poe = composed tom ctxs poe.
Proof.
  intros Hpoe Hwf. unfold _collapse.
  destruct (decide (length ctxs < 2)%nat) as [_|_]; [by exists ctxs|].
  pose proof (filter_app_complement
                (λ ctx, isnan (occurrence_rate ctx)) ctxs) as Hperm.
  apply Permutation_length in Hperm. rewrite length_app in Hperm.
  rewrite (composed_filter (λ ctx, isnan (occurrence_rate ctx)) ctxs).
  assert (Hn : Forall (λ c, isnan (occurrence_rate c) ∧ is_pmf (probs_occur c))
                      (filter (λ ctx, isnan (occurrence_rate ctx)) ctxs)).
  { apply Forall_forall. intros c [Hc Hin]%list_elem_of_filter. split; [done|].
    rewrite Forall_forall in Hwf. specialize (Hwf c Hin).
    unfold well_formed in Hwf. by destruct (occurrence_rate c). }
  assert (Hp : Forall (λ c, ¬ isnan (occurrence_rate c))
                      (filter (λ ctx, ¬ isnan (occurrence_rate ctx)) ctxs)).
  { apply Forall_forall. by intros c [Hc _]%list_elem_of_filter. }
  revert Hperm Hn Hp.
  generalize (filter (λ ctx, isnan (occurrence_rate ctx)) ctxs) as nrups.
  generalize (filter (λ ctx, ¬ isnan (occurrence_rate ctx)) ctxs) as prups.
  intros prups nrups Hlen Hn Hp.
  (* the parametric part of the output *)
  assert (∃ out1,
    match prups with
    | ctx :: _ :: _ =>
        [set_occurrence_rate ctx (foldl fadd (Fin 0) (map occurrence_rate prups))]
    | _ => prups
    end = out1
    ∧ (length out1 ≤ length prups)%nat
    ∧ composed tom out1 poe = composed tom prups poe) as (out1 & -> & Hl1 & Hc1).
  { destruct prups as [|c [|c' l]]; eexists; (split; [reflexivity|]).
    - done.
    - done.
    - split; [simpl; lia|]. by apply parametric_merge. }
  (* the non-parametric part *)
  destruct nrups as [|c [|c' l]].
  - exists (out1 ++ []). repeat split; [rewrite length_app; simpl in *; lia|].
    by rewrite composed_app, Hc1.
  - exists (out1 ++ [c]). repeat split; [rewrite length_app; simpl in *; lia|].
    by rewrite composed_app, Hc1.
  - destruct (nonparametric_merge c c (c' :: l) poe) as (p & -> & Hc2);
      [done|done|by inversion Hn as [|?? [??]]|].
    cbn [mbind result_bind]. eexists. split; [reflexivity|].
    split; [rewrite length_app; simpl in *; lia|].
    by rewrite composed_app, Hc1, Hc2.
Qed.

(** *** [groupby] and [collapse_the_ctxs] *)

Lemma add_to_group_perm {A K} `{EqDecision K} (k : K) (x : A) gs :
  concat (map snd (General.add_to_group k x gs)) ≡ₚ x :: concat (map snd gs).
Proof.
  induction gs as [|[k' g] gs IH]; simpl; [done|].
  destruct (decide (k = k')); simpl.
  - rewrite <- app_assoc. simpl. symmetry. apply Permutation_middle.
  - rewrite IH. symmetry. apply Permutation_middle.
Qed.

Lemma groupby_perm {A K} `{EqDecision K} (l : list A) (key : A → K) :
  concat (map snd (General.groupby l key)) ≡ₚ l.
Proof.
  unfold General.groupby.
  assert (∀ gs, concat (map snd (foldl (λ groups x,
                    General.add_to_group (key x) x groups) gs l))
                ≡ₚ concat (map snd gs) ++ l) as Hgen.
  { induction l as [|x l IH]; intros gs; simpl; [by rewrite app_nil_r|].
    rewrite IH, add_to_group_perm. simpl. apply Permutation_middle. }
  by rewrite Hgen.
Qed.

Lemma elem_of_concat {A} (x : A) l (ls : list (list A)) :
  x ∈ l → l ∈ ls → x ∈ concat ls.
Proof.
  intros Hx. induction 1; simpl; apply elem_of_app; auto.
Qed.

Lemma traverse_lookup {V} (m : gmap string V) (e : exn) (f : V → V) l :
  Forall (λ k, is_Some (m !! k)) l →
  ∃ vs, traverse (λ k, match m !! k with
                       | Some v => Ok (f v)
                       | None => Raise e
                       end) l = Ok vs.
Proof.
  induction 1 as [|k l [v Hv] _ [vs IH]]; simpl; [by eexists|].
  rewrite Hv, IH. by eexists.
Qed.

Lemma traverse_Forall2 {A B} (f : A → result B) (Q : A → B → Prop) l :
  Forall (λ x, ∃ y, f x = Ok y ∧ Q x y) l →
  ∃ ys, traverse f l = Ok ys ∧ Forall2 Q l ys.
Proof.
  induction 1 as [|x l (y & Hy & HQ) _ (ys & IH & HF)]; simpl.
  - by exists [].
  - rewrite Hy, IH. exists (y :: ys). split; [done|]. by constructor.
Qed.

Lemma collapse_the_ctxs_invariant cm ctxs poe :
  0 <= poe <= 1 → Forall well_formed ctxs → Forall (has_key_attributes cm) ctxs →
  ∃ out, collapse_the_ctxs cm ctxs = Ok out
         ∧ (length out ≤ length ctxs)%nat
         ∧ composed tom out poe = composed tom ctxs poe.
Proof.
  intros Hpoe Hwf Hattr. unfold collapse_the_ctxs.
  destruct (decide (length ctxs = 1)%nat) as [_|_]; [by exists ctxs|].
  destruct (if decide (3 <= collapse_level cm)%Z
            then (["mag"%string], O)
            else (REQUIRES_RUPTURE_PARAMETERS cm, 1%nat)) as [rrp rnd] eqn:Hsel.
  (* the keys are computed *)
  destruct (traverse_Forall2
              (λ ctx, k ← params cm rrp rnd ctx; Ok (k, ctx))
              (λ ctx kc, kc.2 = ctx) ctxs) as (keyed & -> & Hkeyed).
  { eapply Forall_impl; [exact Hattr|]. intros ctx (Hmag & Hpar & Hdst).
    unfold params.
    destruct (traverse_lookup (rup_params ctx) AttributeError (λ v, v) rrp)
      as [lst ->].
    { destruct (decide _); injection Hsel as <- <-.
      - repeat constructor. by apply Hmag.
      - apply Hpar. lia. }
    destruct (traverse_lookup (arrays ctx) AttributeError (map (np_round rnd))
                (REQUIRES_DISTANCES cm) Hdst) as [dsts ->].
    cbn [mbind result_bind]. by eexists. }
  cbn [mbind result_bind].
  assert (Hctxs : map snd keyed = ctxs).
  { clear -Hkeyed. induction Hkeyed as [|???? Hx _ IH]; simpl; congruence. }
  pose proof (groupby_perm keyed fst) as Hperm.
  (* every group is collapsed *)
  destruct (traverse_Forall2
              (λ g, _collapse (map snd g.2))
              (λ g out, (length out ≤ length g.2)%nat
                        ∧ composed tom out poe = composed tom (map snd g.2) poe)
              (General.groupby keyed fst)) as (outs & -> & Houts).
  { apply Forall_forall. intros [k g] Hg.
    destruct (_collapse_invariant (map snd g) poe Hpoe) as (out & ? & ? & ?).
    - apply Forall_forall. intros c Hc.
      rewrite Forall_forall in Hwf. apply Hwf. rewrite <- Hctxs.
      apply list_elem_of_fmap in Hc as (kc & -> & Hkc).
      apply list_elem_of_fmap. exists kc. split; [done|].
      rewrite <- Hperm. apply (elem_of_concat _ g); [done|].
      apply list_elem_of_fmap. by exists (k, g).
    - exists out. rewrite length_map in *. done. }
  cbn [mbind result_bind]. eexists. split; [reflexivity|].
  rewrite <- Hctxs, <- (composed_perm _ _ poe (Permutation_map snd Hperm)).
  rewrite length_map, <- (Permutation_length Hperm).
  clear -Houts. induction Houts as [|[k g] out gs outs [Hl Hc] _ [IHl IHc]];
    simpl; [done|].
  rewrite !length_app, map_app, !composed_app. simpl in *. split; [lia|].
  by rewrite Hc, IHc.
Qed.
End collapse.

Section collapse_claim.
Import Contexts TestData.
Local Open Scope R_scope.

(** The Poissonian model is additive in the rate. *)
Lemma PoissonTOM_additive (time_span r1 r2 poes : R) :
  PoissonTOM time_span (r1 + r2) poes
  = PoissonTOM time_span r1 poes * PoissonTOM time_span r2 poes.
Proof. unfold PoissonTOM. rewrite <- exp_plus. f_equal. ring. Qed.

Lemma filter_all {A} (P : A → Prop) `{∀ x, Decision (P x)} l :
  Forall P l → filter P l = l.
Proof.
  induction 1 as [|x l Hx _ IH]; [done|].
  by rewrite filter_cons_True, IH.
Qed.

Lemma filter_none {A} (P : A → Prop) `{∀ x, Decision (P x)} l :
  Forall (λ x, ¬ P x) l → filter P l = [].
Proof.
  induction 1 as [|x l Hx _ IH]; [done|].
  by rewrite filter_cons_False, IH.
Qed.

(** A population of parametric contexts only collapses into its first
    context, which carries the sum of the rates. *)
Lemma _collapse_parametric_only c c' l :
  Forall (λ c, ¬ isnan (occurrence_rate c)) (c :: c' :: l) →
  _collapse (c :: c' :: l)
  = Ok [set_occurrence_rate c (Fin (0 + sumR (map rate_of (c :: c' :: l))))].
Proof.
  intros Hp. unfold _collapse.
  destruct (decide _) as [Hlt|_]; [simpl in Hlt; lia|].
  rewrite (filter_none (λ ctx, isnan (occurrence_rate ctx))) by done.
  rewrite (filter_all (λ ctx, ¬ isnan (occurrence_rate ctx))) by done.
  by rewrite foldl_fadd_rates.
Qed.

(** A population of non-parametric contexts only collapses into its first
    context, which carries the convolution of the PMFs; a mixed population
    keeps both merged contexts, the parametric one first. *)
Lemma _collapse_never_mixes ctxs out :
  _collapse ctxs = Ok out → (2 ≤ length ctxs)%nat →
  ∃ out1 out2, out = out1 ++ out2
    ∧ (length out1 ≤ 1)%nat ∧ (length out2 ≤ 1)%nat
    ∧ Forall (λ c, ¬ isnan (occurrence_rate c)) out1
    ∧ Forall (λ c, isnan (occurrence_rate c)) out2
    ∧ (out1 = [] ↔ Forall (λ c, isnan (occurrence_rate c)) ctxs)
    ∧ (out2 = [] ↔ Forall (λ c, ¬ isnan (occurrence_rate c)) ctxs).
Proof.
  unfold _collapse. intros Hc Hlen.
  destruct (decide _) as [Hlt|_]; [lia|].
  assert (Hn : Forall (λ c, isnan (occurrence_rate c))
                      (filter (λ ctx, isnan (occurrence_rate ctx)) ctxs)).
  { apply Forall_forall. by intros c [Hc' _]%list_elem_of_filter. }
  assert (Hp : Forall (λ c, ¬ isnan (occurrence_rate c))
                      (filter (λ ctx, ¬ isnan (occurrence_rate ctx)) ctxs)).
  { apply Forall_forall. by intros c [Hc' _]%list_elem_of_filter. }
  assert (Hn0 : filter (λ ctx, isnan (occurrence_rate ctx)) ctxs = []
                ↔ Forall (λ c, ¬ isnan (occurrence_rate c)) ctxs).
  { split; [|apply filter_none].
    intros Hnil. apply Forall_forall. intros c Hin Hc'.
    exact (filter_nil_not_elem_of _ _ c Hnil Hc' Hin). }
  assert (Hp0 : filter (λ ctx, ¬ isnan (occurrence_rate ctx)) ctxs = []
                ↔ Forall (λ c, isnan (occurrence_rate c)) ctxs).
  { split.
    - intros Hnil. apply Forall_forall. intros c Hin.
      destruct (decide (isnan (occurrence_rate c))) as [|Hc']; [done|].
      destruct (filter_nil_not_elem_of _ _ c Hnil Hc' Hin).
    - intros Hall. apply filter_none. eapply Forall_impl; [done|]. tauto. }
  revert Hc Hn Hp Hn0 Hp0.
  generalize (filter (λ ctx, isnan (occurrence_rate ctx)) ctxs) as nrups.
  generalize (filter (λ ctx, ¬ isnan (occurrence_rate ctx)) ctxs) as prups.
  intros prups nrups Hc Hn Hp Hn0 Hp0.
  set (out1 := match prups with
               | ctx :: _ :: _ =>
                   [set_occurrence_rate ctx
                      (foldl fadd (Fin 0) (map occurrence_rate prups))]
               | _ => prups
               end) in *.
  assert (H1 : (length out1 ≤ 1)%nat
               ∧ Forall (λ c, ¬ isnan (occurrence_rate c)) out1
               ∧ (out1 = [] ↔ prups = [])).
  { subst out1. destruct prups as [|c [|c' l]].
    - simpl. split; [lia|]. done.
    - simpl. split; [lia|]. done.
    - split; [simpl; lia|]. split; [|done]. constructor; [|done].
      rewrite foldl_fadd_rates by done. simpl. tauto. }
  destruct H1 as (Hl1 & Hf1 & He1).
  destruct nrups as [|c [|c' l]].
  - injection Hc as <-. exists out1, [].
    repeat split; try done; try tauto; try (simpl; lia).
  - injection Hc as <-. exists out1, [c].
    repeat split; try done; try tauto; try (simpl; lia).
  - destruct (reduce combine_pmf _) as [p|e]; [|done].
    injection Hc as <-. exists out1, [set_probs_occur c p].
    repeat split; try done; try tauto; try (simpl; lia).
    + constructor; [|done]. simpl. by inversion Hn.
    + intros H. by apply Hn0 in H.
Qed.

(** C1 -- Collapse invariance.  Let the temporal occurrence model be
    additive in the rate (as the Poissonian one is) and let every
    non-parametric context carry a PMF.  For every list of contexts and
    every conditional probability of exceedance [poe] in [0, 1],
    [_collapse] returns a list that is not longer than its input and has
    the same composed probability under the independent-ruptures rule
    (the product of the no-exceedance probabilities, and hence the same
    [1 - product] that [compose] of the tests returns); the same holds
    for [collapse_the_ctxs], which applies [_collapse] within each group
    of the rounding key.  This covers parametric-only, non-parametric-only
    and mixed populations. *)
Theorem collapse_invariance (tom : TOM) (cm : ContextMaker)
    (ctxs : list RuptureContext) (poe : R) :
  (∀ r1 r2 poes, tom (r1 + r2) poes = tom r1 poes * tom r2 poes) →
  0 <= poe <= 1 →
  Forall well_formed ctxs →
  Forall (has_key_attributes cm) ctxs →
  (∃ out, _collapse ctxs = Ok out
          ∧ (length out ≤ length ctxs)%nat
          ∧ prodR (compose tom out poe).2 = prodR (compose tom ctxs poe).2
          ∧ (compose tom out poe).1 = (compose tom ctxs poe).1)
  ∧ (∃ out, collapse_the_ctxs cm ctxs = Ok out
            ∧ (length out ≤ length ctxs)%nat
            ∧ prodR (compose tom out poe).2 = prodR (compose tom ctxs poe).2
            ∧ (compose tom out poe).1 = (compose tom ctxs poe).1).
Proof.
  intros Hadd Hpoe Hwf Hattr. split.
  - destruct (_collapse_invariant tom Hadd ctxs poe Hpoe Hwf)
      as (out & Hc & Hl & Hcomp).
    exists out. repeat split; [done..| |]; simpl; unfold composed in Hcomp;
      by rewrite Hcomp.
  - destruct (collapse_the_ctxs_invariant tom Hadd cm ctxs poe Hpoe Hwf Hattr)
      as (out & Hc & Hl & Hcomp).
    exists out. repeat split; [done..| |]; simpl; unfold composed in Hcomp;
      by rewrite Hcomp.
Qed.
Lemma collapse_invariance_witness :
  (∃ out, _collapse mixed_ctxs = Ok out
          ∧ (length out ≤ length mixed_ctxs)%nat
          ∧ prodR (compose (PoissonTOM 50) out (1 / 2)).2
            = prodR (compose (PoissonTOM 50) mixed_ctxs (1 / 2)).2
          ∧ (compose (PoissonTOM 50) out (1 / 2)).1
            = (compose (PoissonTOM 50) mixed_ctxs (1 / 2)).1)
  ∧ (∃ out, collapse_the_ctxs plain_cmaker mixed_ctxs = Ok out
            ∧ (length out ≤ length mixed_ctxs)%nat
            ∧ prodR (compose (PoissonTOM 50) out (1 / 2)).2
              = prodR (compose (PoissonTOM 50) mixed_ctxs (1 / 2)).2
            ∧ (compose (PoissonTOM 50) out (1 / 2)).1
              = (compose (PoissonTOM 50) mixed_ctxs (1 / 2)).1).
Proof.
  apply (collapse_invariance (PoissonTOM 50) plain_cmaker mixed_ctxs (1 / 2)).
  - intros. apply PoissonTOM_additive.
  - lra.
  - repeat constructor; simpl; lra.
  - repeat constructor; simpl; lia.
Defined.

(** [CollapseTestCase.test_param], in exact arithmetic: rates 0.001 and
    0.002 compose to the same probability as the single rate 0.003. *)
Example test_param (poe : R) :
  _collapse [parametric_ctx (1 / 1000); parametric_ctx (2 / 1000)]
  = Ok [parametric_ctx (0 + (1 / 1000 + (2 / 1000 + 0)))]
  ∧ PoissonTOM 50 (1 / 1000) poe * PoissonTOM 50 (2 / 1000) poe
    = PoissonTOM 50 (3 / 1000) poe.
Proof.
  split.
  - by rewrite _collapse_parametric_only by (repeat constructor; simpl; tauto).
  - rewrite <- PoissonTOM_additive. f_equal. lra.
Qed.

(** Two parametric contexts collapse into one parametric context. *)
Lemma _collapse_never_mixes_witness :
  ∃ out1 out2,
    _collapse [parametric_ctx (1 / 1000); parametric_ctx (2 / 1000)]
    = Ok (out1 ++ out2)
    ∧ (length out1 ≤ 1)%nat ∧ out2 = [].
Proof.
  assert (Hp : Forall (λ c, ¬ isnan (occurrence_rate c))
                 [parametric_ctx (1 / 1000); parametric_ctx (2 / 1000)])
    by (repeat constructor; simpl; tauto).
  destruct (_collapse_never_mixes
              [parametric_ctx (1 / 1000); parametric_ctx (2 / 1000)]
              _ (_collapse_parametric_only _ _ _ Hp))
    as (out1 & out2 & Hout & Hl1 & _ & _ & _ & _ & Hnil); [simpl; lia|].
  exists out1, out2. rewrite <- Hout.
  split; [exact (_collapse_parametric_only _ _ _ Hp)|].
  split; [exact Hl1|]. apply Hnil, Hp.
Defined.
End collapse_claim.

(** ** Minimum-distance roundup *)

Section roundup.
Import Contexts.
Local Open Scope R_scope.

(** Entry by entry, [roundup_array] replaces what is below the minimum. *)
Lemma roundup_array_map m a :
  roundup_array m a = map (λ d, if decide (d < m) then m else d) a.
Proof.
  unfold roundup_array.
  destruct (array_any _) eqn:Hany.
  - clear Hany. induction a as [|d a IH]; simpl; [done|].
    rewrite IH. unfold bool_decide. by destruct (decide_rel Rlt d m), (decide (d < m)).
  - induction a as [|d a IH]; simpl in *; [done|].
    apply orb_false_iff in Hany as [Hd Ha].
    rewrite <- IH by done. apply bool_decide_eq_false in Hd.
    by destruct (decide (d < m)).
Qed.

Lemma roundup_array_idemp m a :
  roundup_array m (roundup_array m a) = roundup_array m a.
Proof.
  rewrite !roundup_array_map, map_map. apply map_ext. intros d.
  repeat case_decide; lra.
Qed.

Lemma roundup_array_lookup m a i v :
  a !! i = Some v →
  roundup_array m a !! i = Some (if decide (v < m) then m else v).
Proof.
  intros Hv. rewrite roundup_array_map.
  change (map ?f a) with (f <$> a). by rewrite list_lookup_fmap, Hv.
Qed.

Lemma DistancesContext_roundup_lookup (self : DistancesContext) m dist :
  DistancesContext_roundup self m !! dist
  = (λ a, if decide (m = 0) then a else roundup_array m a) <$> self !! dist.
Proof.
  unfold DistancesContext_roundup. destruct (decide (m = 0)).
  - by destruct (self !! dist).
  - by rewrite lookup_fmap.
Qed.

Lemma RuptureContext_roundup_lookup (self : RuptureContext) m dist :
  arrays (RuptureContext_roundup self m) !! dist
  = (λ a, if decide (m = 0) then a
          else if decide (dist ∈ KNOWN_DISTANCES) then roundup_array m a
          else a) <$> arrays self !! dist.
Proof.
  unfold RuptureContext_roundup. destruct (decide (m = 0)).
  - by destruct (arrays self !! dist).
  - simpl. rewrite map_lookup_imap. by destruct (arrays self !! dist).
Qed.

Lemma DistancesContext_roundup_idemp (self : DistancesContext) m :
  DistancesContext_roundup (DistancesContext_roundup self m) m
  = DistancesContext_roundup self m.
Proof.
  apply map_eq. intros dist. rewrite !DistancesContext_roundup_lookup.
  destruct (self !! dist) as [a|]; simpl; [|done].
  f_equal. destruct (decide (m = 0)); [done|]. apply roundup_array_idemp.
Qed.

Lemma RuptureContext_roundup_idemp (self : RuptureContext) m :
  RuptureContext_roundup (RuptureContext_roundup self m) m
  = RuptureContext_roundup self m.
Proof.
  assert (arrays (RuptureContext_roundup (RuptureContext_roundup self m) m)
          = arrays (RuptureContext_roundup self m)) as Harr.
  { apply map_eq. intros dist. rewrite !RuptureContext_roundup_lookup.
    destruct (arrays self !! dist) as [a|]; simpl; [|done].
    f_equal. destruct (decide (m = 0)); [done|].
    destruct (decide (dist ∈ KNOWN_DISTANCES)); [|done].
    apply roundup_array_idemp. }
  revert Harr. unfold RuptureContext_roundup.
  destruct (decide (m = 0)); [done|]. unfold set_arrays. simpl.
  by intros ->.
Qed.

Lemma rounded_up_entry m v (known : bool) :
  rounded_up m v (if decide (m = 0) then v
                  else if known then (if decide (v < m) then m else v) else v).
Proof.
  unfold rounded_up. destruct known; repeat case_decide; split; intros; lra.
Qed.

(** C8 -- Roundup idempotence.  For a [DistancesContext] and for a
    [RuptureContext] and every [minimum_distance], applying
    [roundup(minimum_distance)] twice gives what applying it once gives;
    every array keeps its name and length; an entry that is greater than
    or equal to [minimum_distance] is unchanged, and an entry that changes
    was below [minimum_distance] and becomes exactly [minimum_distance]. *)
Theorem roundup_idempotent (dctx : DistancesContext) (rctx : RuptureContext)
    (minimum_distance : R) :
  DistancesContext_roundup (DistancesContext_roundup dctx minimum_distance)
                           minimum_distance
  = DistancesContext_roundup dctx minimum_distance
  ∧ RuptureContext_roundup (RuptureContext_roundup rctx minimum_distance)
                           minimum_distance
    = RuptureContext_roundup rctx minimum_distance
  ∧ (∀ dist array i v,
       dctx !! dist = Some array → array !! i = Some v →
       ∃ array' v',
         DistancesContext_roundup dctx minimum_distance !! dist = Some array'
         ∧ length array' = length array
         ∧ array' !! i = Some v'
         ∧ rounded_up minimum_distance v v')
  ∧ (∀ dist array i v,
       arrays rctx !! dist = Some array → array !! i = Some v →
       ∃ array' v',
         arrays (RuptureContext_roundup rctx minimum_distance) !! dist
         = Some array'
         ∧ length array' = length array
         ∧ array' !! i = Some v'
         ∧ rounded_up minimum_distance v v').
Proof.
  split; [apply DistancesContext_roundup_idemp|].
  split; [apply RuptureContext_roundup_idemp|].
  split.
  - intros dist array i v Ha Hv.
    rewrite DistancesContext_roundup_lookup, Ha. simpl.
    pose proof (rounded_up_entry minimum_distance v true) as Hr.
    destruct (decide (minimum_distance = 0)); [by eauto 10|].
    eexists _, _. split; [done|].
    rewrite roundup_array_map, length_map. split; [done|].
    rewrite <- roundup_array_map, (roundup_array_lookup _ _ _ _ Hv).
    split; [reflexivity|exact Hr].
  - intros dist array i v Ha Hv.
    rewrite RuptureContext_roundup_lookup, Ha. simpl.
    pose proof (rounded_up_entry minimum_distance v
                  (bool_decide (dist ∈ KNOWN_DISTANCES))) as Hr.
    destruct (decide (minimum_distance = 0)); [by eauto 10|].
    unfold bool_decide in Hr.
    destruct (decide_rel elem_of dist KNOWN_DISTANCES),
             (decide (dist ∈ KNOWN_DISTANCES)); try done; [|by eauto 10].
    eexists _, _. split; [done|].
    rewrite roundup_array_map, length_map. split; [done|].
    rewrite <- roundup_array_map, (roundup_array_lookup _ _ _ _ Hv).
    split; [reflexivity|exact Hr].
Qed.

(** With a non-zero minimum, the entries of a distance array that are
    below it are raised to it. *)
Lemma roundup_raises (dctx : DistancesContext) m dist array i v :
  m ≠ 0 → dctx !! dist = Some array → array !! i = Some v → v < m →
  DistancesContext_roundup dctx m !! dist ≫= (.!! i) = Some m.
Proof.
  intros Hm Ha Hv Hlt. rewrite DistancesContext_roundup_lookup, Ha. simpl.
  destruct (decide (m = 0)); [done|].
  rewrite (roundup_array_lookup _ _ _ _ Hv). by destruct (decide (v < m)).
Qed.

(** The entry 1 of an [rrup] array is raised to the minimum distance 10. *)
Lemma roundup_raises_witness :
  DistancesContext_roundup {[ "rrup"%string := [1; 20]%R ]} 10
    !! "rrup"%string ≫= (.!! O) = Some 10%R.
Proof.
  apply (roundup_raises {[ "rrup"%string := [1; 20]%R ]} 10 "rrup"
           [1; 20]%R O 1%R).
  - lra.
  - apply lookup_singleton_eq.
  - reflexivity.
  - lra.
Defined.
End roundup.

(** ** Distance filter *)

Section distance_filter.
Import Contexts TestData.
Local Open Scope R_scope.

Lemma get_distances_rrup rup sites :
  get_distances rup sites "rrup" = Ok (map (rrup_distance rup) sites).
Proof.
  unfold get_distances, rrup_distance. by destruct (rup_surface rup).
Qed.

Lemma compress_map_filter {A} (f : A → R) (m : R) (l : list A) :
  compress (map (λ d, bool_decide (d <= m)) (map f l)) (map f l)
  = map f (filter (λ x, f x <= m) l).
Proof.
  induction l as [|x l IH]; [done|]. simpl. rewrite filter_cons, IH.
  unfold bool_decide. by destruct (decide_rel Rle (f x) m), (decide (f x <= m)).
Qed.

Lemma compress_mask_filter {A} (f : A → R) (m : R) (l : list A) :
  compress (map (λ d, bool_decide (d <= m)) (map f l)) l
  = filter (λ x, f x <= m) l.
Proof.
  induction l as [|x l IH]; [done|]. simpl. rewrite filter_cons, IH.
  unfold bool_decide. by destruct (decide_rel Rle (f x) m), (decide (f x <= m)).
Qed.

Lemma array_any_Exists {A} (f : A → R) (m : R) (l : list A) :
  array_any (map (λ d, bool_decide (d <= m)) (map f l)) = true
  ↔ Exists (λ x, f x <= m) l.
Proof.
  unfold array_any. induction l as [|x l IH]; simpl.
  - split; [done|]. by intros ?%Exists_nil.
  - rewrite Exists_cons, orb_true_iff, IH, bool_decide_eq_true. done.
Qed.

(** The filter keeps the sites within the maximum distance, with their
    distances. *)
Lemma filter_near cm sites rup :
  Exists (within_distance cm rup) (sitecol_sites sites) →
  ContextMaker_filter cm sites rup
  = Ok ({| sitecol_sites :=
             filter (within_distance cm rup) (sitecol_sites sites);
           sitecol_complete := sitecol_complete sites |},
        {[ "rrup"%string :=
             map (rrup_distance rup)
                 (filter (within_distance cm rup) (sitecol_sites sites)) ]}).
Proof.
  intros Hex. unfold ContextMaker_filter. rewrite get_distances_rrup.
  cbn [mbind result_bind].
  apply array_any_Exists in Hex as ->.
  unfold sitecol_filter. by rewrite compress_mask_filter, compress_map_filter.
Qed.

Lemma filter_far cm sites rup :
  sitecol_sites sites ≠ [] →
  ¬ Exists (within_distance cm rup) (sitecol_sites sites) →
  ContextMaker_filter cm sites rup = Raise FarAwayRupture.
Proof.
  intros Hne Hfar. unfold ContextMaker_filter. rewrite get_distances_rrup.
  cbn [mbind result_bind].
  destruct (array_any _) eqn:Hany.
  - by apply array_any_Exists in Hany.
  - by destruct (sitecol_sites sites).
Qed.

Lemma make_contexts_far cm sites rup :
  sitecol_sites sites ≠ [] →
  ¬ Exists (within_distance cm rup) (sitecol_sites sites) →
  make_contexts cm sites rup = Raise FarAwayRupture.
Proof.
  intros Hne Hfar. unfold make_contexts. by rewrite filter_far.
Qed.

Lemma make_ctxs_skips cm ruptures sites fewsites :
  Forall (λ rup, sitecol_sites (default sites (rup_sites rup)) ≠ []) ruptures →
  make_ctxs cm ruptures sites fewsites
  = make_ctxs cm (filter (near cm sites) ruptures) sites fewsites.
Proof.
  induction 1 as [|rup ruptures Hne _ IH]; [done|].
  rewrite filter_cons. destruct (decide (near cm sites rup)) as [Hnear|Hfar].
  - simpl. rewrite IH. done.
  - simpl. by rewrite make_contexts_far.
Qed.

(** C4 -- Distance filter boundary and FarAwayRupture.  For a non-empty
    site collection and a rupture, [ContextMaker.filter] returns exactly
    the sites whose rrup distance is less than or equal to the maximum
    distance of the rupture's magnitude and tectonic region (a site at
    exactly that distance is kept, a site beyond it is dropped), with
    their distances, when there is such a site; it raises FarAwayRupture
    if and only if there is none.  [make_ctxs] skips a rupture for which
    FarAwayRupture is raised and continues with the remaining ruptures:
    it returns what it returns on the ruptures that have a site within
    the maximum distance. *)
Theorem distance_filter_boundary (cm : ContextMaker) (sites : SiteCollection)
    (rup : Rupture) (ruptures : list Rupture) (fewsites : bool) :
  sitecol_sites sites ≠ [] →
  Forall (λ rup, sitecol_sites (default sites (rup_sites rup)) ≠ []) ruptures →
  let mdist := maximum_distance cm (trt cm) (rup_mag rup) in
  (Exists (λ s, rrup_distance rup s <= mdist) (sitecol_sites sites) →
   ∃ r_sites dctx,
     ContextMaker_filter cm sites rup = Ok (r_sites, dctx)
     ∧ (∀ s, s ∈ sitecol_sites r_sites
             ↔ s ∈ sitecol_sites sites ∧ rrup_distance rup s <= mdist)
     ∧ sitecol_sites r_sites
       = filter (λ s, rrup_distance rup s <= mdist) (sitecol_sites sites)
     ∧ dctx !! "rrup"%string
       = Some (map (rrup_distance rup) (sitecol_sites r_sites)))
  ∧ (ContextMaker_filter cm sites rup = Raise FarAwayRupture
     ↔ Forall (λ s, ¬ rrup_distance rup s <= mdist) (sitecol_sites sites))
  ∧ (make_contexts cm (default sites (rup_sites rup)) rup = Raise FarAwayRupture →
     make_ctxs cm (rup :: ruptures) sites fewsites
     = make_ctxs cm ruptures sites fewsites)
  ∧ make_ctxs cm ruptures sites fewsites
    = make_ctxs cm (filter (near cm sites) ruptures) sites fewsites.
Proof.
  intros Hne Hrups mdist. repeat split.
  - intros Hex. eexists _, _. split; [by apply filter_near|].
    split; [|split]; [|done|by rewrite lookup_singleton_eq].
    intros s. simpl. by rewrite list_elem_of_filter, (comm and).
  - intros Hraise. apply Forall_Exists_neg. intros Hex.
    by rewrite filter_near in Hraise.
  - intros Hfar%Forall_Exists_neg. by apply filter_far.
  - intros Hfar. simpl. by rewrite Hfar.
  - by apply make_ctxs_skips.
Qed.
Lemma distance_filter_boundary_witness :
  ∃ r_sites dctx,
    ContextMaker_filter plain_cmaker boundary_sites point_rupture
    = Ok (r_sites, dctx)
    ∧ sitecol_sites r_sites = [site_at 0 200]
    ∧ make_ctxs plain_cmaker [far_rupture] boundary_sites false = Ok [].
Proof.
  destruct (distance_filter_boundary plain_cmaker boundary_sites point_rupture
              [far_rupture] false) as (Hnear & _ & _ & Hskip).
  - done.
  - by repeat constructor.
  - destruct Hnear as (r_sites & dctx & Hf & _ & Hs & _).
    { apply Exists_cons_hd. unfold rrup_distance. simpl. lra. }
    exists r_sites, dctx. split; [done|]. split.
    + rewrite Hs. simpl.
      rewrite filter_cons_True by (unfold rrup_distance; simpl; lra).
      rewrite filter_cons_False by (unfold rrup_distance; simpl; lra).
      done.
    + rewrite Hskip. rewrite filter_cons_False; [done|].
      unfold near. simpl. intros Hex.
      repeat (apply Exists_cons in Hex as [Hex|Hex];
              [unfold rrup_distance in Hex; simpl in Hex; lra|]).
      by apply Exists_nil in Hex.
Defined.
End distance_filter.

(** ** Composition of the probability map *)

Section pmap.
Import Contexts TestData.
Local Open Scope R_scope.

Lemma foldl_flat_map {A B C} (f : A → C → A) (g : B → list C) (a : A) l :
  foldl f a (flat_map g l) = foldl (λ a x, foldl f a (g x)) a l.
Proof.
  revert a. induction l as [|x l IH]; intros a; simpl; [done|].
  by rewrite foldl_app, IH.
Qed.

Lemma foldl_map {A B C} (f : A → C → A) (g : B → C) (a : A) l :
  foldl f a (map g l) = foldl (λ a x, f a (g x)) a l.
Proof. revert a. induction l as [|x l IH]; intros a; simpl; [done|]. apply IH. Qed.

Lemma foldl_ext_all {A B} (f g : A → B → A) (a : A) l :
  (∀ a x, f a x = g a x) → foldl f a l = foldl g a l.
Proof.
  intros H. revert a. induction l as [|x l IH]; intros a; simpl; [done|].
  by rewrite H, IH.
Qed.

Lemma update_ctx_contributions tom indep cm block pmap :
  foldl (update_ctx tom indep) pmap (gen_ctx_poes cm block)
  = foldl (λ pmap c, update_site indep c.1.1 pmap c.1.2 c.2)
          pmap (block_contributions tom cm block).
Proof.
  unfold block_contributions. rewrite foldl_flat_map.
  apply foldl_ext_all. intros pm' [ctx poes]. unfold update_ctx.
  by rewrite foldl_map.
Qed.

Lemma _update_pmap_contributions tom self ctxs pmap :
  _update_pmap tom self ctxs pmap
  = foldl (λ pmap c, update_site (rup_indep self) c.1.1 pmap c.1.2 c.2)
          pmap (contributions tom self ctxs).
Proof.
  unfold _update_pmap, contributions. rewrite foldl_flat_map.
  apply foldl_ext_all. intros pm block. apply update_ctx_contributions.
Qed.

Lemma update_site_curves rup_indep ctx pmap sid pne :
  curves (update_site rup_indep ctx pmap sid pne)
  = <[sid := if rup_indep
             then zip_with Rmult (accumulator rup_indep pmap sid) pne
             else zip_with (λ p q, p + (1 - q) * weight ctx)
                           (accumulator rup_indep pmap sid) pne]>
      (curves pmap).
Proof.
  unfold update_site, setdefault, accumulator, set_curve.
  destruct (curves pmap !! sid) as [a|]; destruct rup_indep; simpl;
    by rewrite ?insert_insert_eq.
Qed.

Lemma update_site_shape rup_indep ctx pmap sid pne :
  shape_y (update_site rup_indep ctx pmap sid pne) = shape_y pmap
  ∧ shape_z (update_site rup_indep ctx pmap sid pne) = shape_z pmap.
Proof.
  unfold update_site, setdefault, set_curve.
  by destruct (curves pmap !! sid), rup_indep.
Qed.

Lemma block_splitter_from_concat {A} (weight : A → R) max_weight items cur :
  concat (General.block_splitter_from cur items max_weight weight) = cur ++ items.
Proof.
  revert cur. induction items as [|x items IH]; intros cur; simpl.
  - destruct cur; simpl; by rewrite ?app_nil_r.
  - destruct (decide _).
    + destruct cur; simpl; rewrite IH; done.
    + by rewrite IH, <- app_assoc.
Qed.

Lemma block_splitter_concat {A} (weight : A → R) max_weight items :
  concat (General.block_splitter items max_weight weight) = items.
Proof. apply block_splitter_from_concat. Qed.

Lemma site_rows_app l1 l2 : site_rows (l1 ++ l2) = site_rows l1 ++ site_rows l2.
Proof. unfold site_rows. by rewrite flat_map_app. Qed.

Lemma site_rows_concat blocks :
  flat_map site_rows blocks = site_rows (concat blocks).
Proof.
  induction blocks as [|b blocks IH]; [done|]. simpl.
  by rewrite site_rows_app, IH.
Qed.

Lemma map_fst_imap {A B} (f : nat → A → B) (l : list A) :
  map fst (imap (λ n x, (x, f n x)) l) = l.
Proof.
  revert f. induction l as [|x l IH]; intros f; [done|]. simpl.
  f_equal. apply (IH (λ n, f (S n))).
Qed.

Lemma zip_map_seq {A B} (h : nat → B) (l : list A) s :
  zip l (map h (seq s (length l))) = imap (λ j x, (x, h (s + j)%nat)) l.
Proof.
  revert s h. induction l as [|x l IH]; intros s h; [done|]. simpl.
  rewrite Nat.add_0_r. f_equal. rewrite IH.
  apply imap_ext. intros j y _. simpl. do 2 f_equal. lia.
Qed.

Lemma map_imap {A B C} (f : B → C) (g : nat → A → B) l :
  map f (imap g l) = imap (λ n x, f (g n x)) l.
Proof.
  revert g. induction l as [|x l IH]; intros g; [done|]. simpl.
  f_equal. apply IH.
Qed.

Lemma imap_map {A B C} (f : nat → B → C) (g : A → B) l :
  imap f (map g l) = imap (λ n x, f n (g x)) l.
Proof.
  revert f. induction l as [|x l IH]; intros f; [done|]. simpl.
  f_equal. apply IH.
Qed.

Lemma take_drop_map_seq {B} (g : nat → B) s n N :
  (s + n ≤ N)%nat → take n (drop s (map g (seq 0 N))) = map g (seq s n).
Proof.
  intros Hle. rewrite List.skipn_map, List.firstn_map. f_equal.
  rewrite drop_seq, take_seq. f_equal; lia.
Qed.

Lemma slice_poes_updates tom (g : nat → list R) N ctxs s :
  (s + length (site_rows ctxs) ≤ N)%nat →
  flat_map
    (λ ctx_poes : RuptureContext * list (list R),
       map (λ sid_pne : nat * list R, (ctx_poes.1, sid_pne.1, sid_pne.2))
           (zip (sids ctx_poes.1)
                (map (map (get_probability_no_exceedance tom ctx_poes.1))
                     ctx_poes.2)))
    (slice_poes (map g (seq 0 N)) ctxs s)
  = imap (λ n cs, (cs.1, cs.2,
                   map (get_probability_no_exceedance tom cs.1) (g (s + n)%nat)))
         (site_rows ctxs).
Proof.
  revert s. induction ctxs as [|ctx ctxs IH]; intros s Hle; [done|].
  simpl. unfold site_rows in *. simpl in *. rewrite length_app, length_map in Hle.
  rewrite imap_app, length_map. f_equal.
  - rewrite take_drop_map_seq by lia. rewrite List.map_map.
    rewrite (zip_map_seq _ (sids ctx) s), map_imap, imap_map.
    by apply imap_ext.
  - rewrite IH by lia. apply imap_ext. intros n cs _. simpl.
    do 3 f_equal. lia.
Qed.

Lemma length_site_rows ctxs :
  length (site_rows ctxs)
  = foldr Nat.add O (map (λ ctx, length (sids ctx)) ctxs).
Proof.
  induction ctxs as [|ctx ctxs IH]; [done|].
  unfold site_rows in *. simpl. by rewrite length_app, length_map, IH.
Qed.

(** What [gen_ctx_poes] and the loop over [zip(ctx.sids, pnes)] produce for
    a block are the updates of the block. *)
Lemma block_contributions_updates tom cm block :
  block_contributions tom cm block = block_updates tom cm block.
Proof.
  unfold block_contributions, gen_ctx_poes, block_updates.
  rewrite <- length_site_rows.
  rewrite (slice_poes_updates tom (gsims_poes cm block)) by lia. done.
Qed.

Lemma map_fst_block_updates tom cm block :
  map fst (block_updates tom cm block) = site_rows block.
Proof.
  unfold block_updates.
  rewrite (imap_ext _ (λ n cs, (cs, map (get_probability_no_exceedance tom cs.1)
                                         (gsims_poes cm block n)))).
  - apply map_fst_imap.
  - by intros n [ctx sid] _.
Qed.

(** A site is touched by its own updates only. *)
Lemma fold_updates_site rup_indep us pmap sid :
  curves (foldl (λ pmap u, update_site rup_indep u.1.1 pmap u.1.2 u.2) pmap us)
    !! sid
  = match filter (λ u, u.1.2 = sid) us with
    | [] => curves pmap !! sid
    | mine => Some (foldl (site_update rup_indep)
                          (accumulator rup_indep pmap sid) mine)
    end.
Proof.
  revert pmap. induction us as [|u us IH]; intros pmap; [done|].
  simpl. rewrite IH.
  pose proof (update_site_curves rup_indep u.1.1 pmap u.1.2 u.2) as Hc.
  pose proof (update_site_shape rup_indep u.1.1 pmap u.1.2 u.2) as [Hy Hz].
  destruct (decide (u.1.2 = sid)) as [<-|Hne].
  - rewrite filter_cons_True by done.
    assert (Hacc : accumulator rup_indep
                     (update_site rup_indep u.1.1 pmap u.1.2 u.2) u.1.2
                   = site_update rup_indep (accumulator rup_indep pmap u.1.2) u).
    { unfold accumulator at 1. rewrite Hc, lookup_insert_eq. simpl.
      unfold site_update. by destruct rup_indep. }
    destruct (filter _ us) as [|u' mine].
    + rewrite Hc, lookup_insert_eq. simpl. unfold site_update.
      by destruct rup_indep.
    + simpl. by rewrite Hacc.
  - rewrite filter_cons_False by done.
    assert (Hacc : accumulator rup_indep
                     (update_site rup_indep u.1.1 pmap u.1.2 u.2) sid
                   = accumulator rup_indep pmap sid).
    { unfold accumulator. by rewrite Hc, Hy, Hz, lookup_insert_ne. }
    rewrite Hacc, Hc, lookup_insert_ne by done. done.
Qed.

(** C3 -- Rupture interdependence composition.  [_update_pmap] makes one
    update for every context and every site id of the context, and no
    other: the blocks that it takes from the contexts hold them all, in
    order, and the list of the updates names every context with every one
    of its site ids, once and in the order of the loops.  It folds these
    updates into the map.  When the ruptures are independent ([rup_indep]
    true) an update multiplies the per-site accumulator array, entry by
    entry, by the no-exceedance probabilities [pne] of the rupture at the
    site; when they are mutually exclusive it adds (1 - pne) * ctx.weight
    instead; the other sites are left as they are.  So the array of a site
    at the end is the accumulator of the site with the updates of that
    site applied in order, and a site without update is as it was. *)
Theorem update_pmap_composition (tom : TOM) (self : PmapMaker)
    (ctxs : list RuptureContext) (pmap : ProbabilityMap) :
  let blocks := General.block_splitter ctxs (maxsites self)
                  (λ ctx, INR (length (sids ctx))) in
  let updates := flat_map (block_updates tom (cmaker self)) blocks in
  concat blocks = ctxs
  ∧ map fst updates = site_rows ctxs
  ∧ _update_pmap tom self ctxs pmap
    = foldl (λ pmap u, update_site (rup_indep self) u.1.1 pmap u.1.2 u.2)
            pmap updates
  ∧ (∀ (ctx : RuptureContext) (pmap : ProbabilityMap) (sid : nat)
       (pne : list R),
       let probs := accumulator (rup_indep self) pmap sid in
       let pmap' := update_site (rup_indep self) ctx pmap sid pne in
       (rup_indep self = true →
        curves pmap' !! sid = Some (zip_with (λ p q, p * q) probs pne))
       ∧ (rup_indep self = false →
          curves pmap' !! sid
          = Some (zip_with (λ p q, p + (1 - q) * weight ctx) probs pne))
       ∧ ∀ sid', sid' ≠ sid → curves pmap' !! sid' = curves pmap !! sid')
  ∧ (∀ sid,
       curves (_update_pmap tom self ctxs pmap) !! sid
       = match filter (λ u, u.1.2 = sid) updates with
         | [] => curves pmap !! sid
         | mine => Some (foldl (site_update (rup_indep self))
                               (accumulator (rup_indep self) pmap sid) mine)
         end).
Proof.
  intros blocks updates.
  assert (Hcat : concat blocks = ctxs) by apply block_splitter_concat.
  assert (Hupd : contributions tom self ctxs = updates).
  { unfold contributions, updates. fold blocks.
    apply flat_map_ext. intros b. apply block_contributions_updates. }
  split; [done|]. split.
  { unfold updates. rewrite <- Hcat, <- site_rows_concat.
    generalize blocks. clear. intros bs.
    induction bs as [|b bs IH]; [done|]. simpl.
    by rewrite map_app, map_fst_block_updates, IH. }
  split; [by rewrite _update_pmap_contributions, Hupd|].
  split.
  { intros ctx pm sid pne probs pmap'. subst probs pmap'.
    rewrite update_site_curves. split; [|split].
    - intros ->. by rewrite lookup_insert_eq.
    - intros ->. by rewrite lookup_insert_eq.
    - intros sid' Hne. by rewrite lookup_insert_ne. }
  intros sid. rewrite _update_pmap_contributions, Hupd.
  apply fold_updates_site.
Qed.

(** *** The implicit value of an absent site *)

Lemma slice_poes_spec poes ctxs s ctx rows :
  (ctx, rows) ∈ slice_poes poes ctxs s →
  ctx ∈ ctxs ∧ ∀ row, row ∈ rows → row ∈ poes.
Proof.
  revert s. induction ctxs as [|c ctxs IH]; intros s; simpl.
  - by intros ?%elem_of_nil.
  - intros [[= -> ->]|Hin]%elem_of_cons.
    + split; [by left|]. intros row Hrow.
      by apply subseteq_take, subseteq_drop in Hrow.
    + destruct (IH _ Hin). split; [by right|done].
Qed.

Lemma block_contributions_spec tom cm block c :
  c ∈ block_contributions tom cm block →
  c.1.1 ∈ block
  ∧ ∃ n, c.2 = map (get_probability_no_exceedance tom c.1.1)
                   (gsims_poes cm block n).
Proof.
  unfold block_contributions.
  intros ([ctx poes] & Hg & Hc)%list_elem_of_In%in_flat_map.
  apply in_map_iff in Hc as ([sid pne] & <- & Hz). simpl in *.
  apply list_elem_of_In in Hg, Hz.
  apply slice_poes_spec in Hg as [Hctx Hrows].
  split; [done|].
  apply elem_of_zip_r, list_elem_of_fmap in Hz as (row & -> & Hrow).
  apply Hrows, list_elem_of_fmap in Hrow as (n & -> & _).
  by exists n.
Qed.

Lemma contributions_spec tom self ctxs c :
  c ∈ contributions tom self ctxs →
  c.1.1 ∈ ctxs
  ∧ ∃ block n,
      c.2 = map (get_probability_no_exceedance tom c.1.1)
                (gsims_poes (cmaker self) block n).
Proof.
  unfold contributions.
  intros (block & Hblock & Hc)%list_elem_of_In%in_flat_map.
  apply list_elem_of_In in Hblock, Hc.
  apply block_contributions_spec in Hc as (Hctx & n & Hc).
  split; [|by exists block, n].
  rewrite <- (block_splitter_concat (λ ctx, INR (length (sids ctx)))
                (maxsites self) ctxs).
  by apply (elem_of_concat _ block).
Qed.

Lemma zip_with_mult_unit a b :
  Forall (λ v, 0 <= v <= 1) a → Forall (λ v, 0 <= v <= 1) b →
  Forall (λ v, 0 <= v <= 1) (zip_with Rmult a b).
Proof.
  intros Ha. revert b. induction Ha as [|x a Hx _ IH]; intros b Hb; [done|].
  destruct Hb as [|y b Hy Hb]; [done|]. simpl. constructor; [nra|by apply IH].
Qed.

Lemma accumulator_unit pmap sid :
  in_unit_interval pmap → Forall (λ v, 0 <= v <= 1) (accumulator true pmap sid).
Proof.
  intros Hp. unfold accumulator.
  destruct (curves pmap !! sid) as [a|] eqn:Ha; simpl.
  - by apply (Hp sid).
  - apply Forall_replicate. lra.
Qed.

Lemma update_site_unit ctx pmap sid pne :
  in_unit_interval pmap → Forall (λ v, 0 <= v <= 1) pne →
  in_unit_interval (update_site true ctx pmap sid pne).
Proof.
  intros Hp Hpne. unfold in_unit_interval. rewrite update_site_curves.
  apply map_Forall_insert_2; [|done].
  by apply zip_with_mult_unit; [apply accumulator_unit|].
Qed.

Lemma fold_contributions_unit tom cm ctxs cs pmap :
  probabilities_valid tom cm ctxs →
  (∀ c, c ∈ cs →
     c.1.1 ∈ ctxs
     ∧ ∃ block n, c.2 = map (get_probability_no_exceedance tom c.1.1)
                            (gsims_poes cm block n)) →
  in_unit_interval pmap →
  in_unit_interval
    (foldl (λ pmap c, update_site true c.1.1 pmap c.1.2 c.2) pmap cs).
Proof.
  intros [Hpne Hpoes] Hcs. revert pmap.
  induction cs as [|c cs IH]; intros pmap Hp; simpl; [done|].
  apply IH.
  - intros c' Hc'. apply Hcs. by right.
  - apply update_site_unit; [done|].
    destruct (Hcs c) as (Hctx & block & n & ->); [by left|].
    apply Forall_map. eapply Forall_impl; [apply Hpoes|].
    intros p Hp'. simpl. by apply Hpne.
Qed.

Lemma _make_pmap_update_ctx ctxs cm :
  _make_pmap ctxs cm
  = invert (foldl (update_ctx (PoissonTOM (investigation_time cm)) true)
                  (new_ProbabilityMap (num_levels cm) (num_gsims cm))
                  (gen_ctx_poes cm ctxs)).
Proof.
  reflexivity.
Qed.

Lemma invert_unit pmap : in_unit_interval pmap → in_unit_interval (invert pmap).
Proof.
  unfold in_unit_interval, invert. simpl. intros Hp sid a.
  rewrite lookup_fmap.
  destruct (curves pmap !! sid) as [a'|] eqn:Ha; [|done]. intros [= <-].
  specialize (Hp sid a' Ha). simpl in Hp.
  apply Forall_map. eapply Forall_impl; [done|]. simpl. intros; lra.
Qed.
Lemma PoissonTOM_unit t r p :
  0 <= t → 0 <= r → 0 <= p → 0 <= PoissonTOM t r p <= 1.
Proof.
  intros Ht Hr Hp. unfold PoissonTOM. split; [left; apply exp_pos|].
  assert (0 <= r * t * p) as [Hpos|<-] by (repeat apply Rmult_le_pos; done).
  - left. rewrite <- exp_0. apply exp_increasing. lra.
  - rewrite Ropp_0, exp_0. lra.
Qed.

(** In the mutually exclusive mode the accumulator of a site that receives
    its first contribution starts at 0, not at 1: a context of weight 1
    whose no-exceedance probability at the site is 3/4 leaves
    0 + (1 - 3/4) * 1 = 1/4 in the map, not 1 + 1/4. *)
Lemma mutex_accumulator_starts_at_zero :
  curves (new_ProbabilityMap 1 1) !! O = None
  ∧ accumulator false (new_ProbabilityMap 1 1) O = [0]
  ∧ accumulator false (new_ProbabilityMap 1 1) O ≠ [1]
  ∧ curves (_update_pmap (PoissonTOM 50) mutex_maker
              [nonparametric_ctx [1 / 2; 1 / 2]] (new_ProbabilityMap 1 1))
    !! O = Some [0 + (1 - 3 / 4) * 1].
Proof.
  split; [done|]. split; [done|]. split.
  { unfold accumulator. simpl. rewrite lookup_empty. simpl. intros H.
    apply (f_equal (λ l, nth O l 0)) in H. simpl in H. lra. }
  unfold _update_pmap, General.block_splitter. simpl.
  destruct (decide _) as [Hlt|_].
  { unfold General.block_weight in Hlt. simpl in Hlt. lra. }
  simpl. unfold update_site, setdefault. simpl. rewrite lookup_empty. simpl.
  rewrite lookup_insert_eq.
  assert (get_probability_no_exceedance (PoissonTOM 50)
            (nonparametric_ctx [1 / 2; 1 / 2]) (1 / 2) = 3 / 4) as ->; [|done].
  unfold get_probability_no_exceedance. simpl.
  unfold clip, Rmin, Rmax. repeat (destruct (Rle_dec _ _)); lra.
Qed.

(** C7 -- ProbabilityMap implicit-value invariant, as the code has it.  For
    independent ruptures the absence of a site id stands for the value 1:
    when a site first receives a contribution its accumulator is an array
    of ones, multiplied by the contribution; if the values folded in are
    probabilities, all the stored values remain in [0, 1], in
    [_update_pmap] and in [_make_pmap].  For mutually exclusive ruptures
    the accumulator of a site that first receives a contribution is an
    array of zeros, to which (1 - pne) * weight is added. *)
Theorem implicit_value_invariant (tom : TOM) (self : PmapMaker)
    (ctxs : list RuptureContext) (pmap : ProbabilityMap) :
  probabilities_valid tom (cmaker self) ctxs →
  probabilities_valid (PoissonTOM (investigation_time (cmaker self)))
                      (cmaker self) ctxs →
  in_unit_interval pmap →
  (∀ ctx pm sid pne,
     curves pm !! sid = None →
     curves (update_site true ctx pm sid pne) !! sid
     = Some (zip_with Rmult (replicate (shape_y pm * shape_z pm) 1) pne)
     ∧ curves (update_site false ctx pm sid pne) !! sid
       = Some (zip_with (λ p q, p + (1 - q) * weight ctx)
                        (replicate (shape_y pm * shape_z pm) 0) pne))
  ∧ (rup_indep self = true →
     in_unit_interval (_update_pmap tom self ctxs pmap))
  ∧ in_unit_interval (_make_pmap ctxs (cmaker self)).
Proof.
  intros Hvalid Hpoisson Hpmap. repeat split.
  - rewrite update_site_curves, lookup_insert_eq.
    unfold accumulator. by rewrite H.
  - rewrite update_site_curves, lookup_insert_eq.
    unfold accumulator. by rewrite H.
  - intros Hindep. rewrite _update_pmap_contributions, Hindep.
    apply (fold_contributions_unit tom (cmaker self) ctxs);
      [exact Hvalid| |exact Hpmap].
    intros c Hc. by apply contributions_spec in Hc.
  - rewrite _make_pmap_update_ctx. apply invert_unit.
    rewrite update_ctx_contributions.
    apply (fold_contributions_unit
             (PoissonTOM (investigation_time (cmaker self))) (cmaker self) ctxs);
      [exact Hpoisson| |by intros ???].
    intros c Hc. apply block_contributions_spec in Hc as (? & n & ?).
    split; [done|]. by exists ctxs, n.
Qed.

Lemma mixed_ctxs_valid :
  probabilities_valid (PoissonTOM 50) plain_cmaker mixed_ctxs.
Proof.
  split.
  - intros ctx poe Hin Hpoe. unfold mixed_ctxs in Hin.
    repeat (apply elem_of_cons in Hin as [->|Hin]);
      [apply PoissonTOM_unit; lra..|apply clip_unit|apply clip_unit|].
    by apply elem_of_nil in Hin.
  - intros block n. simpl. repeat constructor; lra.
Qed.

Lemma implicit_value_invariant_witness :
  in_unit_interval (_update_pmap (PoissonTOM 50) indep_maker mixed_ctxs
                                 (new_ProbabilityMap 1 1))
  ∧ in_unit_interval (_make_pmap mixed_ctxs plain_cmaker).
Proof.
  destruct (implicit_value_invariant (PoissonTOM 50) indep_maker mixed_ctxs
              (new_ProbabilityMap 1 1)) as (_ & Hupdate & Hmake).
  - apply mixed_ctxs_valid.
  - apply mixed_ctxs_valid.
  - apply map_Forall_empty.
  - split; [by apply Hupdate|exact Hmake].
Defined.
End pmap.

(** ** Weighted task partitioner *)

Section partitioner.
Import Classical TestData.
Local Open Scope R_scope.

Abbreviation bw := (General.block_weight source_weight).

Lemma block_weight_app {A} (w : A → R) l1 l2 :
  General.block_weight w (l1 ++ l2)
  = General.block_weight w l1 + General.block_weight w l2.
Proof. unfold General.block_weight. by rewrite map_app, sumR_app. Qed.

Lemma block_weight_perm {A} (w : A → R) l1 l2 :
  l1 ≡ₚ l2 → General.block_weight w l1 = General.block_weight w l2.
Proof.
  unfold General.block_weight. induction 1; simpl; lra || congruence.
Qed.

Lemma block_weight_concat {A} (w : A → R) (bs : list (list A)) :
  General.block_weight w (concat bs) = sumR (map (General.block_weight w) bs).
Proof.
  induction bs as [|b bs IH]; simpl; [done|].
  by rewrite block_weight_app, IH.
Qed.

(** A block of the greedy splitter respects the maximum weight unless it
    is a single item. *)
Lemma block_splitter_from_bound {A} (w : A → R) maxw items cur :
  General.block_weight w cur <= maxw ∨ (length cur ≤ 1)%nat →
  Forall (λ b, General.block_weight w b <= maxw ∨ length b = 1%nat)
         (General.block_splitter_from cur items maxw w).
Proof.
  revert cur. induction items as [|x items IH]; intros cur Hcur; simpl.
  - destruct cur as [|y cur]; [done|]. constructor; [|done].
    destruct Hcur as [?|Hlen]; [by left|]. right.
    destruct cur; simpl in *; [done|lia].
  - destruct (decide _) as [Hex|Hfit].
    + assert (Forall (λ b, General.block_weight w b <= maxw ∨ length b = 1%nat)
                (General.block_splitter_from [x] items maxw w)) as Hrest.
      { apply IH. right. simpl. lia. }
      destruct cur as [|y cur]; [done|]. constructor; [|done].
      destruct Hcur as [?|Hlen]; [by left|]. right.
      destruct cur; simpl in *; [done|lia].
    + apply IH. left. rewrite block_weight_app.
      unfold General.block_weight at 2. simpl. lra.
Qed.

Lemma block_splitter_bound {A} (w : A → R) maxw items :
  Forall (λ b, General.block_weight w b <= maxw ∨ length b = 1%nat)
         (General.block_splitter items maxw w).
Proof. apply block_splitter_from_bound. right. simpl. lia. Qed.

Lemma last_removelast {A} (l : list A) x :
  last l = Some x → l = removelast l ++ [x].
Proof.
  induction l as [|y [|z l] IH]; intros Hl; [done| |].
  - by injection Hl as ->.
  - change (last (y :: z :: l)) with (last (z :: l)) in Hl.
    change (removelast (y :: z :: l)) with (y :: removelast (z :: l)).
    simpl. f_equal. by apply IH.
Qed.

Lemma split_blocks_spec minw light bs :
  split_blocks minw light bs
  = (light ++ concat (filter (λ b, bw b < minw) bs),
     map Subtask (filter (λ b, ¬ bw b < minw) bs)).
Proof.
  unfold split_blocks.
  assert (∀ l ys,
    foldl (λ acc block,
             if decide (bw block < minw)
             then (acc.1 ++ block, acc.2)
             else (acc.1, acc.2 ++ [Subtask block])) (l, ys) bs
    = (l ++ concat (filter (λ b, bw b < minw) bs),
       ys ++ map Subtask (filter (λ b, ¬ bw b < minw) bs))) as Hgen.
  { induction bs as [|b bs IH]; intros l ys; simpl.
    - by rewrite !app_nil_r.
    - rewrite !filter_cons.
      destruct (decide (bw b < minw)), (decide (¬ bw b < minw));
        try done; simpl; rewrite IH; simpl; by rewrite <- ?app_assoc. }
  apply Hgen.
Qed.

Lemma concat_filter_perm {A} (P : list A → Prop) `{∀ b, Decision (P b)} bs :
  concat (filter (λ b, ¬ P b) bs) ++ concat (filter P bs) ≡ₚ concat bs.
Proof.
  induction bs as [|b bs IH]; simpl; [done|].
  rewrite !filter_cons.
  destruct (decide (P b)), (decide (¬ P b)); try done; simpl.
  - rewrite <- IH. rewrite !app_assoc. apply Permutation_app_tail.
    apply Permutation_app_comm.
  - by rewrite <- app_assoc, IH.
Qed.
(** A source heavier than the maximum weight is yielded as a subtask of
    its own: with max_weight = 10 (blocks of at most 5) the source of
    weight 100 makes a heavy block that exceeds max_weight. *)
Lemma heavy_block_exceeds_max_weight :
  classical_split_filter (λ srcs, srcs) [big_source; small_source] small_params
  = [Subtask [big_source]; Result [small_source]]
  ∧ max_weight small_params < bw [big_source].
Proof.
  split.
  - unfold classical_split_filter, split_phase, General.block_splitter. simpl.
    destruct (decide _) as [_|Hn];
      [|unfold General.block_weight in Hn; simpl in Hn; lra].
    destruct (decide _) as [_|Hn];
      [|unfold General.block_weight in Hn; simpl in Hn; lra].
    simpl. unfold split_blocks. simpl.
    destruct (decide _) as [Hlt|_];
      [unfold General.block_weight in Hlt; simpl in Hlt; lra|].
    done.
  - unfold General.block_weight. simpl. lra.
Qed.

(** C6 -- Partitioner invariants, as the code has them.  Let [sources] be
    the sources that [classical_split_filter] partitions (the light
    sources and the sub-sources of the others when the sources are split,
    the input otherwise) and [maxw] the block size (a fifth or a half of
    max_weight).  Without sources the empty result is yielded.  Otherwise
    the heavy blocks are yielded as subtasks and then the result of the
    light block, computed by the caller; every source is in exactly one
    of them; the weights of the heavy blocks and of the light block add
    up to the total weight of the sources; a yielded block weighs at
    least min_weight; a block before the last that weighs less than
    min_weight is merged into the light block and not yielded, and so is
    the last block; a heavy block of more than one source weighs at most
    [maxw], and no heavy block exceeds [maxw] when no single source
    does. *)
Theorem partitioner_invariants (srcfilter_split : list Source → list Source)
    (srcs : list Source) (params : Params) :
  let maxw := (split_phase srcfilter_split srcs params).1 in
  let sources := (split_phase srcfilter_split srcs params).2 in
  let minw := min_weight params in
  let blocks := General.block_splitter sources maxw source_weight in
  let yielded := classical_split_filter srcfilter_split srcs params in
  (sources = [] → yielded = [EmptyResult])
  ∧ (sources ≠ [] →
     ∃ heavy light,
       yielded = map Subtask heavy ++ [Result light]
       ∧ concat heavy ++ light ≡ₚ sources
       ∧ sumR (map bw heavy) + bw light = bw sources
       ∧ Forall (λ b, minw <= bw b ∧ (bw b <= maxw ∨ length b = 1%nat)) heavy
       ∧ (∀ b, b ∈ removelast blocks → bw b < minw → b ⊆ light ∧ b ∉ heavy)
       ∧ (∀ b, last blocks = Some b → b ⊆ light)
       ∧ (Forall (λ s, source_weight s <= maxw) sources →
          Forall (λ b, bw b <= maxw) heavy)).
Proof.
  intros maxw sources minw blocks yielded.
  assert (Hy : yielded
               = match last blocks with
                 | None => [EmptyResult]
                 | Some final =>
                     let '(light, subtasks) :=
                       split_blocks minw final (removelast blocks) in
                     subtasks ++ [Result light]
                 end).
  { subst yielded blocks maxw sources minw. unfold classical_split_filter.
    by destruct (split_phase srcfilter_split srcs params). }
  pose proof (block_splitter_concat source_weight maxw sources) as Hconcat.
  pose proof (block_splitter_bound source_weight maxw sources) as Hbound.
  fold blocks in Hconcat, Hbound.
  split.
  - intros Hnil. rewrite Hy. rewrite Hnil in Hconcat.
    destruct blocks as [|b bs] eqn:Hb; [done|].
    subst blocks. unfold General.block_splitter in Hb. by rewrite Hnil in Hb.
  - intros Hne. rewrite Hy.
    destruct (last blocks) as [final|] eqn:Hlast.
    2: { apply last_None in Hlast. rewrite Hlast in Hconcat. by simpl in Hconcat. }
    pose proof (last_removelast _ _ Hlast) as Hsplit.
    rewrite split_blocks_spec.
    set (rest := removelast blocks) in *.
    exists (filter (λ b, ¬ bw b < minw) rest),
           (final ++ concat (filter (λ b, bw b < minw) rest)).
    assert (Hperm : concat (filter (λ b, ¬ bw b < minw) rest)
                    ++ final ++ concat (filter (λ b, bw b < minw) rest)
                    ≡ₚ sources).
    { rewrite <- Hconcat, Hsplit, concat_app. simpl. rewrite app_nil_r.
      rewrite <- (concat_filter_perm (λ b, bw b < minw) rest).
      rewrite (Permutation_app_comm final), !app_assoc. done. }
    repeat split.
    + done.
    + rewrite <- (block_weight_perm _ _ _ Hperm).
      by rewrite (block_weight_app _ (concat _)), block_weight_concat.
    + apply Forall_forall. intros b [Hheavy Hin]%list_elem_of_filter.
      split; [lra|].
      rewrite Forall_forall in Hbound. apply Hbound. rewrite Hsplit.
      apply elem_of_app. by left.
    + intros s Hs. apply elem_of_app. right.
      apply (elem_of_concat _ b); [done|]. by apply list_elem_of_filter.
    + intros [Hheavy _]%list_elem_of_filter. done.
    + intros b [= <-] s Hs. apply elem_of_app. by left.
    + intros Hsmall. apply Forall_forall.
      intros b [Hheavy Hin]%list_elem_of_filter.
      assert (Hb : b ∈ blocks) by (rewrite Hsplit; apply elem_of_app; by left).
      rewrite Forall_forall in Hbound. destruct (Hbound b Hb) as [?|Hlen]; [done|].
      destruct b as [|s [|??]]; try done.
      unfold General.block_weight. simpl. rewrite Rplus_0_r.
      rewrite Forall_forall in Hsmall. apply Hsmall.
      rewrite <- Hconcat. apply (elem_of_concat _ [s]); [by left|done].
Qed.

Lemma partitioner_invariants_witness :
  ∃ heavy light,
    classical_split_filter (λ srcs, srcs) [big_source; small_source] small_params
    = map Subtask heavy ++ [Result light]
    ∧ concat heavy ++ light ≡ₚ [big_source; small_source]
    ∧ sumR (map bw heavy) + bw light = bw [big_source; small_source].
Proof.
  destruct (partitioner_invariants (λ srcs, srcs) [big_source; small_source]
              small_params) as [_ Hsome].
  destruct Hsome as (heavy & light & Hy & Hperm & Hsum & _); [done|].
  by exists heavy, light.
Defined.
End partitioner.

(** ** Bin edges and binning *)

Section binning.
Import Contexts Disagg TestData.
Local Open Scope R_scope.

























Lemma to_R_finite x s m e :
  Prim2SF x = S754_finite s m e →
  Binary64.to_R x
  = if (0 <=? e)%Z then IZR (Binary64.signed s m * 2 ^ e)
    else IZR (Binary64.signed s m) / IZR (2 ^ (- e)).
Proof. intros H. unfold Binary64.to_R. by rewrite H. Qed.



(** The failures of the edge computation: without any magnitude [min]
    raises ValueError, and a zero bin width, of either sign, makes the
    division raise ZeroDivisionError. *)
Lemma bin_width_zero_raises (w maxdist mag : float) (mags : list float) :
  build_mag_edges w [] = Raise ValueError
  ∧ build_mag_edges 0 (mag :: mags) = Raise ZeroDivisionError
  ∧ build_mag_edges (-0) (mag :: mags) = Raise ZeroDivisionError
  ∧ build_dist_edges 0 maxdist = Raise ZeroDivisionError.
Proof. done. Qed.




End binning.

(** ** Disaggregation matrix size ceiling *)

Section matrix_size.
Import Contexts Disagg Disaggregation TestData.
Local Open Scope Z_scope.

Lemma wrap_int64_mul_l x d : wrap_int64 (wrap_int64 x * d) = wrap_int64 (x * d).
Proof.
  unfold wrap_int64. f_equal.
  rewrite <- (Z.add_mod_idemp_l (_ * d)) by lia.
  rewrite <- (Z.mul_mod_idemp_l _ d) by lia.
  rewrite <- (Z.add_mod_idemp_l (x * d)) by lia.
  rewrite <- (Z.mul_mod_idemp_l x d) by lia.
  do 3 f_equal.
  rewrite Zminus_mod_idemp_l.
  replace (x + 2 ^ 63 - 2 ^ 63) with x by lia. done.
Qed.

Lemma wrap_int64_small z : - 2 ^ 63 <= z < 2 ^ 63 → wrap_int64 z = z.
Proof. intros Hz. unfold wrap_int64. rewrite Z.mod_small; lia. Qed.

(** [numpy.prod] is the product modulo 2^64, read as a signed integer. *)
Lemma np_prod_wrap shape : np_prod shape = wrap_int64 (number_of_cells shape).
Proof.
  unfold np_prod.
  assert (∀ a, foldl (λ acc d, wrap_int64 (acc * d)) (wrap_int64 a) shape
               = wrap_int64 (a * number_of_cells shape)) as Hgen.
  { induction shape as [|d shape IH]; intros a; simpl.
    - by rewrite Z.mul_1_r.
    - rewrite wrap_int64_mul_l, IH. f_equal. lia. }
  rewrite <- (wrap_int64_small 1) at 1 by lia.
  rewrite Hgen. f_equal. lia.
Qed.
Lemma np_prod_exact shape :
  - 2 ^ 63 <= number_of_cells shape < 2 ^ 63 →
  np_prod shape = number_of_cells shape.
Proof. intros H. by rewrite np_prod_wrap, wrap_int64_small. Qed.

Lemma save_bin_edges_too_large b lon0 lat0 evs :
  lon_edges b !! O = Some lon0 → lat_edges b !! O = Some lat0 →
  1000000 < np_prod (bin_shape b lon0 lat0) →
  save_bin_edges b evs = (evs, Raise ValueError).
Proof.
  intros Hlon Hlat Hbig. unfold save_bin_edges. rewrite Hlon, Hlat.
  change (np_prod _) with (np_prod (bin_shape b lon0 lat0)). by destruct (decide _).
Qed.

Lemma save_bin_edges_fits b lon0 lat0 evs :
  lon_edges b !! O = Some lon0 → lat_edges b !! O = Some lat0 →
  np_prod (bin_shape b lon0 lat0) <= 1000000 →
  save_bin_edges b evs = (evs ++ bin_datasets, Ok ()).
Proof.
  intros Hlon Hlat Hfit. unfold save_bin_edges. rewrite Hlon, Hlat.
  change (np_prod _) with (np_prod (bin_shape b lon0 lat0)). destruct (decide _); [lia|].
  unfold calc_bind, store, bin_datasets. by rewrite <- !app_assoc.
Qed.

Lemma submit_all tasks evs :
  foldr (λ task_no rest, calc_bind (submit task_no) (λ _, rest))
        (calc_ret ()) tasks evs
  = (evs ++ map Submitted tasks, Ok ()).
Proof.
  revert evs. induction tasks as [|t tasks IH]; intros evs; simpl.
  - unfold calc_ret. by rewrite app_nil_r.
  - unfold calc_bind, submit at 1. rewrite IH. by rewrite <- app_assoc.
Qed.

(** As long as the product of the bin counts is computed without
    overflow, a matrix above the ceiling aborts the calculation before any
    bin edge is stored and before any task is submitted. *)
Lemma full_disaggregation_fail_fast self edges shapedic lon0 lat0 evs :
  get_edges_shapedic (geo self) (oqparam self) (sitecol self) (source_mags self)
  = Ok (edges, shapedic) →
  lon_edges edges !! O = Some lon0 → lat_edges edges !! O = Some lat0 →
  1000000 < number_of_cells (bin_shape edges lon0 lat0) < 2 ^ 63 →
  ∃ extra e,
    full_disaggregation self evs = (evs ++ extra, Raise e)
    ∧ Forall (λ ev, ev ∈ [Stored "best_rlzs"; Stored "iml4"; Stored "poe4"])
             extra
    ∧ (checks_pass self → e = ValueError).
Proof.
  intros Hget Hlon Hlat Hsize.
  assert (1000000 < np_prod (bin_shape edges lon0 lat0)) as Hbig
    by (rewrite np_prod_exact; lia).
  unfold full_disaggregation, calc_bind, calc_lift. rewrite Hget.
  unfold checks_pass.
  destruct (atomic self).
  { exists [], NotImplementedError. rewrite app_nil_r.
    split; [done|]. split; [done|]. by intros [? _]. }
  unfold calc_ret, store, calc_raise.
  destruct (decide _) as [HZ|HZ].
  2: { eexists [_], AssertionError. split; [done|].
       split; [repeat constructor|]. by intros (_ & ? & _). }
  destruct (iml_disagg self) eqn:Himl.
  - rewrite (save_bin_edges_too_large _ lon0 lat0) by done.
    eexists [_; _; _], ValueError. rewrite <- !app_assoc.
    split; [done|]. split; [|done].
    repeat constructor; set_solver.
  - destruct (ok_sites self) eqn:Hok.
    + eexists [_], SystemExit. split; [done|].
      split; [repeat constructor|]. by intros (_ & _ & [?|?]).
    + rewrite (save_bin_edges_too_large _ lon0 lat0) by done.
      eexists [_; _; _], ValueError. rewrite <- !app_assoc.
      split; [done|]. split; [|done].
      repeat constructor; set_solver.
Qed.

(** When the check lets the matrix through, the bin edges are stored and
    the tasks are submitted. *)
Lemma full_disaggregation_proceeds self edges shapedic lon0 lat0 evs :
  get_edges_shapedic (geo self) (oqparam self) (sitecol self) (source_mags self)
  = Ok (edges, shapedic) →
  lon_edges edges !! O = Some lon0 → lat_edges edges !! O = Some lat0 →
  np_prod (bin_shape edges lon0 lat0) <= 1000000 →
  checks_pass self → transfer_too_big self = false →
  full_disaggregation self evs
  = (evs ++ [Stored "best_rlzs"; Stored "iml4"; Stored "poe4"] ++ bin_datasets
         ++ [Stored "disagg_task"]
         ++ map Submitted (seq 0 (num_tasks self)), Ok ()).
Proof.
  intros Hget Hlon Hlat Hfit (Hatomic & HZ & Hsites) Htransfer.
  unfold full_disaggregation, calc_bind, calc_lift. rewrite Hget, Hatomic.
  unfold calc_ret, store. destruct (decide _) as [_|?]; [|done].
  assert (Hrest : ∀ evs0,
    calc_bind (save_bin_edges edges) (λ _, compute self) evs0
    = (evs0 ++ bin_datasets ++ [Stored "disagg_task"]
            ++ map Submitted (seq 0 (num_tasks self)), Ok ())).
  { intros evs0. unfold calc_bind.
    rewrite (save_bin_edges_fits _ lon0 lat0) by done.
    unfold compute. rewrite Htransfer. unfold calc_bind, store.
    fold (calc_bind (A := unit) (B := unit)).
    rewrite submit_all. by rewrite <- !app_assoc. }
  unfold calc_bind in Hrest.
  destruct (iml_disagg self).
  - rewrite Hrest. by rewrite <- !app_assoc.
  - destruct (ok_sites self); [by destruct Hsites|].
    rewrite Hrest. by rewrite <- !app_assoc.
Qed.
Lemma many_edges_length : Z.of_nat (length many_edges) = 65537.
Proof.
  unfold many_edges, arange. rewrite !length_map, length_seq. lia.
Qed.

Lemma huge_bin_shape :
  bin_shape huge_bin_edges many_edges many_edges
  = [65536; 65536; 65536; 65536; 1; 1].
Proof.
  unfold bin_shape, huge_bin_edges.
  cbn [map app mag_edges dist_edges eps_edges trts].
  rewrite many_edges_length. reflexivity.
Qed.

(** *** A job with 2^64 cells *)

Lemma overflow_mag_edges :
  build_mag_edges (mag_bin_width overflow_job) (concat (map snd overflow_mags))
  = Ok (map (λ i, (mag_bin_width overflow_job * Binary64.float_of_int i)%float)
            (arange 8192 73729)).
Proof.
  unfold build_mag_edges.
  replace (Binary64.py_min _) with (Ok (A := float) 1%float)
    by (vm_compute; reflexivity).
  cbn [mbind result_bind].
  replace (Binary64.truediv 1 _) with (Ok (A := float) 8192%float)
    by (vm_compute; reflexivity).
  cbn [mbind result_bind].
  replace (Binary64.int _) with (Ok (A := Z) 8192) by (vm_compute; reflexivity).
  cbn [mbind result_bind].
  replace (Binary64.py_max _) with (Ok (A := float) 9%float)
    by (vm_compute; reflexivity).
  cbn [mbind result_bind].
  replace (Binary64.truediv 9 _) with (Ok (A := float) 73728%float)
    by (vm_compute; reflexivity).
  cbn [mbind result_bind].
  replace (Binary64.int _) with (Ok (A := Z) 73729) by (vm_compute; reflexivity).
  reflexivity.
Qed.

Lemma overflow_dist_edges :
  build_dist_edges (distance_bin_width overflow_job) 4096
  = Ok (map (λ i, (distance_bin_width overflow_job
                   * Binary64.float_of_int i)%float)
            (arange 0 65537)).
Proof.
  unfold build_dist_edges.
  replace (Binary64.truediv _ _) with (Ok (A := float) 65536%float)
    by (vm_compute; reflexivity).
  cbn [mbind result_bind].
  replace (Binary64.int _) with (Ok (A := Z) 65537) by (vm_compute; reflexivity).
  reflexivity.
Qed.

Lemma overflow_maxdist :
  Binary64.py_max (map (oq_maximum_distance overflow_job)
                       (map fst overflow_mags)) = Ok 4096%float.
Proof. vm_compute. reflexivity. Qed.

Lemma to_R_4096 : Binary64.to_R 4096 = 4096%R.
Proof.
  erewrite to_R_finite; [|vm_compute; reflexivity].
  cbn [Z.leb Z.compare Binary64.signed Z.opp].
  change (2 ^ (- (-40))) with 1099511627776. lra.
Qed.

Lemma overflow_lon_lat_bins :
  ∃ lons lats,
    lon_lat_bins flat_geo 0 0 4096 (1 / 800) = Ok (lons, lats)
    ∧ Z.of_nat (length lons) = 65537 ∧ Z.of_nat (length lats) = 65537.
Proof.
  unfold lon_lat_bins. cbn [flat_geo KM_TO_DEGREES angular_distance cross_idl].
  destruct (decide (1 / 800 = 0)%R) as [|_]; [lra|].
  assert (Hceil : Zceil (4096 * (1 / 100) / (1 / 800)) = 32768)
    by (apply Zceil_eq; lra).
  rewrite Hceil. destruct (decide (32768 = 0)%R) as [|_]; [lra|].
  assert (Hmin1 : Rmin (4096 / 100) 180 = (1024 / 25)%R)
    by (rewrite Rmin_left; lra).
  assert (Hmin2 : Rmin (4096 * (1 / 100)) 90 = (1024 / 25)%R)
    by (rewrite Rmin_left; lra).
  rewrite Hmin1, Hmin2. unfold arange_float.
  destruct (decide (1024 / 25 / 32768 = 0)%R) as [|_]; [lra|].
  assert (Hn : Zceil ((1024 / 25 + 1 / 1000 - - (1024 / 25))
                      / (1024 / 25 / 32768)) = 65537)
    by (apply Zceil_eq; lra).
  rewrite Hn. cbn [mbind result_bind]. eexists _, _. split; [reflexivity|].
  rewrite !length_map, !length_seq. lia.
Qed.

Lemma overflow_edges :
  ∃ edges shapedic lon0 lat0,
    get_edges_shapedic (geo overflow_calculator) (oqparam overflow_calculator)
      (sitecol overflow_calculator) (source_mags overflow_calculator)
    = Ok (edges, shapedic)
    ∧ lon_edges edges !! O = Some lon0 ∧ lat_edges edges !! O = Some lat0
    ∧ bin_shape edges lon0 lat0 = [65536; 65536; 65536; 65536; 1; 1].
Proof.
  destruct overflow_lon_lat_bins as (lons & lats & Hll & Hl1 & Hl2).
  unfold get_edges_shapedic.
  cbn [overflow_calculator geo oqparam sitecol source_mags].
  rewrite overflow_mag_edges. cbn [mbind result_bind].
  rewrite overflow_maxdist.
  cbn [mbind result_bind]. rewrite overflow_dist_edges.
  cbn [mbind result_bind foldl]. rewrite to_R_4096.
  change (site_lon (site_at 0 0)) with 0%R.
  change (site_lat (site_at 0 0)) with 0%R.
  change (coordinate_bin_width overflow_job) with (1 / 800)%R.
  rewrite Hll. cbn [mbind result_bind].
  change (site_id (site_at 0 0)) with O.
  rewrite !insert_empty, !map_to_list_singleton.
  cbn [fmap list_fmap snd assert_same_shape].
  destruct (decide (Forall _ [])) as [_|Hn]; [|exfalso; apply Hn; constructor].
  cbn [mbind result_bind].
  destruct (decide (Forall _ [])) as [_|Hn]; [|exfalso; apply Hn; constructor].
  cbn [mbind result_bind]. rewrite !lookup_singleton_eq.
  eexists _, _, lons, lats. split; [reflexivity|].
  cbn [lon_edges lat_edges]. rewrite !lookup_singleton_eq.
  split; [reflexivity|]. split; [reflexivity|].
  unfold bin_shape. cbn [mag_edges dist_edges eps_edges trts].
  unfold arange, linspace. rewrite !length_map, !length_seq, Hl1, Hl2.
  rewrite !Z2Nat.id by lia. reflexivity.
Qed.

(** *** A job above the ceiling, without overflow *)

Lemma large_dist_edges :
  build_dist_edges (distance_bin_width large_job) 200
  = Ok (map (λ i, (distance_bin_width large_job
                   * Binary64.float_of_int i)%float)
            (arange 0 21)).
Proof.
  unfold build_dist_edges.
  replace (Binary64.truediv _ _) with (Ok (A := float) 20%float)
    by (vm_compute; reflexivity).
  cbn [mbind result_bind].
  replace (Binary64.int _) with (Ok (A := Z) 21) by (vm_compute; reflexivity).
  reflexivity.
Qed.

Lemma large_maxdist :
  Binary64.py_max (map (oq_maximum_distance large_job)
                       (map fst overflow_mags)) = Ok 200%float.
Proof. vm_compute. reflexivity. Qed.

Lemma to_R_200 : Binary64.to_R 200 = 200%R.
Proof.
  erewrite to_R_finite; [|vm_compute; reflexivity].
  cbn [Z.leb Z.compare Binary64.signed Z.opp].
  change (2 ^ (- (-45))) with 35184372088832. lra.
Qed.

Lemma large_lon_lat_bins :
  ∃ lons lats,
    lon_lat_bins flat_geo 0 0 200 1 = Ok (lons, lats)
    ∧ Z.of_nat (length lons) = 5 ∧ Z.of_nat (length lats) = 5.
Proof.
  unfold lon_lat_bins. cbn [flat_geo KM_TO_DEGREES angular_distance cross_idl].
  destruct (decide (1 = 0)%R) as [|_]; [lra|].
  assert (Hceil : Zceil (200 * (1 / 100) / 1) = 2) by (apply Zceil_eq; lra).
  rewrite Hceil. destruct (decide (2 = 0)%R) as [|_]; [lra|].
  assert (Hmin1 : Rmin (200 / 100) 180 = 2%R) by (rewrite Rmin_left; lra).
  assert (Hmin2 : Rmin (200 * (1 / 100)) 90 = 2%R) by (rewrite Rmin_left; lra).
  rewrite Hmin1, Hmin2. unfold arange_float.
  destruct (decide (2 / 2 = 0)%R) as [|_]; [lra|].
  assert (Hn : Zceil ((2 + 1 / 1000 - - (2)) / (2 / 2)) = 5)
    by (apply Zceil_eq; lra).
  rewrite Hn. cbn [mbind result_bind]. eexists _, _. split; [reflexivity|].
  rewrite !length_map, !length_seq. lia.
Qed.

Lemma large_edges :
  ∃ edges shapedic lon0 lat0,
    get_edges_shapedic (geo large_calculator) (oqparam large_calculator)
      (sitecol large_calculator) (source_mags large_calculator)
    = Ok (edges, shapedic)
    ∧ lon_edges edges !! O = Some lon0 ∧ lat_edges edges !! O = Some lat0
    ∧ bin_shape edges lon0 lat0 = [65536; 20; 4; 4; 1; 1].
Proof.
  destruct large_lon_lat_bins as (lons & lats & Hll & Hl1 & Hl2).
  unfold get_edges_shapedic.
  cbn [large_calculator geo oqparam sitecol source_mags].
  change (mag_bin_width large_job) with (mag_bin_width overflow_job).
  rewrite overflow_mag_edges. cbn [mbind result_bind].
  rewrite large_maxdist.
  cbn [mbind result_bind]. rewrite large_dist_edges.
  cbn [mbind result_bind foldl]. rewrite to_R_200.
  change (site_lon (site_at 0 0)) with 0%R.
  change (site_lat (site_at 0 0)) with 0%R.
  change (coordinate_bin_width large_job) with 1%R.
  rewrite Hll. cbn [mbind result_bind].
  change (site_id (site_at 0 0)) with O.
  rewrite !insert_empty, !map_to_list_singleton.
  cbn [fmap list_fmap snd assert_same_shape].
  destruct (decide (Forall _ [])) as [_|Hn]; [|exfalso; apply Hn; constructor].
  cbn [mbind result_bind].
  destruct (decide (Forall _ [])) as [_|Hn]; [|exfalso; apply Hn; constructor].
  cbn [mbind result_bind]. rewrite !lookup_singleton_eq.
  eexists _, _, lons, lats. split; [reflexivity|].
  cbn [lon_edges lat_edges]. rewrite !lookup_singleton_eq.
  split; [reflexivity|]. split; [reflexivity|].
  unfold bin_shape. cbn [mag_edges dist_edges eps_edges trts].
  unfold arange, linspace. rewrite !length_map, !length_seq, Hl1, Hl2.
  rewrite !Z2Nat.id by lia. reflexivity.
Qed.

(** On a job with 20971520 cells the calculation aborts with a ValueError
    after the datasets that precede the bin edges; nothing is submitted. *)
Lemma full_disaggregation_fail_fast_witness :
  ∃ extra,
    full_disaggregation large_calculator [] = (extra, Raise ValueError)
    ∧ Forall (λ ev, ev ∈ [Stored "best_rlzs"; Stored "iml4"; Stored "poe4"])
             extra.
Proof.
  destruct large_edges as (edges & shapedic & lon0 & lat0 & Hget & Hlon
                           & Hlat & Hshape).
  destruct (full_disaggregation_fail_fast large_calculator edges shapedic
              lon0 lat0 [] Hget Hlon Hlat) as (extra & e & Hrun & Hev & He).
  { rewrite Hshape. split; [reflexivity|reflexivity]. }
  exists extra. rewrite He in Hrun.
  - split; [exact Hrun|exact Hev].
  - split; [reflexivity|]. split; [simpl; lia|]. by left.
Defined.

(** C9 -- Disaggregation matrix size ceiling: where the code departs from
    the claim.  With 2^16 bins of magnitude, distance, longitude and
    latitude, one bin of epsilon and one tectonic region the matrix has
    2^64 cells, far above the ceiling of 10^6; [numpy.prod] computes the
    product in 64-bit integers and returns 0, so [save_bin_edges] raises
    nothing and stores the bin edges.  And there is a job with such bin
    edges: on [overflow_calculator] the edges that [get_edges_shapedic]
    computes give a matrix of 2^64 cells, the other checks of
    [full_disaggregation] pass, and [full_disaggregation] stores the bin
    edges and submits the disaggregation tasks. *)
Theorem matrix_size_check_overflows :
  number_of_cells (bin_shape huge_bin_edges many_edges many_edges) = 2 ^ 64
  ∧ np_prod (bin_shape huge_bin_edges many_edges many_edges) = 0
  ∧ save_bin_edges huge_bin_edges [] = (bin_datasets, Ok ())
  ∧ (∃ edges shapedic lon0 lat0,
       get_edges_shapedic (geo overflow_calculator)
         (oqparam overflow_calculator) (sitecol overflow_calculator)
         (source_mags overflow_calculator)
       = Ok (edges, shapedic)
       ∧ lon_edges edges !! O = Some lon0 ∧ lat_edges edges !! O = Some lat0
       ∧ number_of_cells (bin_shape edges lon0 lat0) = 2 ^ 64)
  ∧ checks_pass overflow_calculator
  ∧ full_disaggregation overflow_calculator []
    = ([Stored "best_rlzs"; Stored "iml4"; Stored "poe4"] ++ bin_datasets
         ++ [Stored "disagg_task"] ++ [Submitted 0; Submitted 1], Ok ()).
Proof.
  assert (Hprod : np_prod (bin_shape huge_bin_edges many_edges many_edges) = 0)
    by (rewrite huge_bin_shape; reflexivity).
  split; [rewrite huge_bin_shape; reflexivity|].
  split; [exact Hprod|].
  split.
  { rewrite (save_bin_edges_fits _ many_edges many_edges);
      [done|apply lookup_singleton_eq|apply lookup_singleton_eq|lia]. }
  destruct overflow_edges as (edges & shapedic & lon0 & lat0 & Hget & Hlon
                              & Hlat & Hshape).
  assert (Hchecks : checks_pass overflow_calculator).
  { split; [done|]. split; [simpl; lia|]. by left. }
  split; [|split; [done|]].
  - exists edges, shapedic, lon0, lat0. rewrite Hshape.
    split; [exact Hget|]. split; [exact Hlon|]. split; [exact Hlat|].
    reflexivity.
  - rewrite (full_disaggregation_proceeds overflow_calculator edges shapedic
               lon0 lat0); [done|done|done|done| |done|done].
    rewrite Hshape. vm_compute. discriminate.
Qed.
End matrix_size.
